(** * pseudo_random_native: canonical serialisation and seed derivation

    A shallow embedding of [ext/pseudo_random_native/pseudo_random_native.cpp]:
    the [SeedCalculator] class ([zigzag], [encode_varint],
    [canonical_serialize], [to_seed_int]) and the C entry point
    [seed_to_seed_int].

    Conventions.
    - Unsigned machine integers ([uint8_t], [uint32_t], [uint64_t]) are
      values of [N]; every operation that can leave the width is followed by
      an explicit [mod].  [int64_t] is a [Z].
    - The member [bytes] (a [std::vector<uint8_t>]) is threaded explicitly:
      a member function that appends to it is a [writer], a function from the
      buffer it finds to the buffer it leaves.
    - The calls into the Ruby runtime either return or leave the C++ frames
      by [rb_raise]; a C++ exception is a third way out.  The three ways are
      the constructors of [outcome].
    - Storage is not bounded: [push_back] and the constructions of a
      [std::string] always return, where the program can leave them by
      [std::bad_alloc] or [std::length_error] when memory runs out.  A C++
      exception therefore only enters through a call into the runtime, and
      nothing below says that the [catch] clause of [seed_to_seed_int] is
      never reached. *)

From Equations Require Import Equations.
From Stdlib Require Import NArith ZArith List Bool Lia Strings.String Strings.Byte.
From Stdlib Require Import DecimalString Permutation Sorted.
Import ListNotations.

Set Warnings "-register-all".
Local Open Scope N_scope.

(** ** Ruby runtime: exceptions and results of calls into it *)

(** A Ruby exception: the name of its class and its message. *)
Record rb_exception : Type := RbException {
  exc_class : string;
  exc_message : string
}.

Inductive outcome (A : Type) : Type :=
| Ok (a : A)
| RubyRaise (e : rb_exception)
| CxxThrow (what : string).

Arguments Ok {A} a.
Arguments RubyRaise {A} e.
Arguments CxxThrow {A} what.

Definition bind {A B : Type} (m : outcome A) (k : A -> outcome B) : outcome B :=
  match m with
  | Ok a => k a
  | RubyRaise e => RubyRaise e
  | CxxThrow what => CxxThrow what
  end.

Notation "x <- m ;;; k" := (bind m (fun x => k))
  (at level 61, m at next level, right associativity).

Definition rb_eRangeError (message : string) : rb_exception :=
  RbException "RangeError" message.

Definition rb_eRuntimeError (message : string) : rb_exception :=
  RbException "RuntimeError" message.

(** [NUM2LL] of the Ruby C API ([rb_num2ll]) on an Integer: the value when it
    fits [long long], a RangeError otherwise. *)
Definition NUM2LL (n : Z) : outcome Z :=
  if ((- 2 ^ 63 <=? n) && (n <? 2 ^ 63))%Z then Ok n
  else RubyRaise (rb_eRangeError "bignum too big to convert into 'long long'").

(** [NUM2ULL] of the Ruby C API ([rb_num2ull]) on an Integer: a Fixnum is
    cast from [long], a Bignum goes through [rb_big2ull], which accepts
    [-2^63 .. 2^64-1] and returns the value modulo [2^64]; a RangeError
    otherwise, worded after whether the magnitude still fits 64 bits. *)
Definition NUM2ULL (n : Z) : outcome N :=
  if ((- 2 ^ 63 <=? n) && (n <? 2 ^ 64))%Z then Ok (Z.to_N (n mod 2 ^ 64))
  else if ((- 2 ^ 64 <? n) && (n <? 0))%Z
  then RubyRaise (rb_eRangeError "bignum out of range of unsigned long long")
  else RubyRaise
         (rb_eRangeError "bignum too big to convert into 'unsigned long long'").

(** ** Ruby values *)

(** The contents of a Ruby String: raw bytes, no encoding attached. *)
Definition rstring : Type := list byte.

(** The [VALUE]s the serialiser distinguishes, by [TYPE(obj)]:
    [T_FIXNUM] and [T_BIGNUM] are one Integer; a [T_DATA] that is a [Time]
    is given by what its methods [to_i] and [nsec] return; everything else
    is an object of a named class. *)
Inductive VALUE : Type :=
| RNil
| RTrue
| RFalse
| RInteger (n : Z)
| RFloat (bits : N)
| RString (s : rstring)
| RSymbol (name : rstring)
| RArray (elems : list VALUE)
| RHash (pairs : list (VALUE * VALUE))
| RTime (to_i : Z) (nsec : Z)
| RObject (class_name : rstring) (object_id : N).

Definition rstring_eqb (a b : rstring) : bool :=
  if list_eq_dec Byte.byte_eq_dec a b then true else false.

(** Key comparison of [rb_hash_aref]: structural equality. *)
Fixpoint VALUE_eqb (a b : VALUE) {struct a} : bool :=
  match a, b with
  | RNil, RNil => true
  | RTrue, RTrue => true
  | RFalse, RFalse => true
  | RInteger x, RInteger y => Z.eqb x y
  | RFloat x, RFloat y => N.eqb x y
  | RString x, RString y => rstring_eqb x y
  | RSymbol x, RSymbol y => rstring_eqb x y
  | RArray xs, RArray ys =>
      (fix all2 (xs ys : list VALUE) {struct xs} : bool :=
         match xs, ys with
         | [], [] => true
         | x :: xs', y :: ys' => VALUE_eqb x y && all2 xs' ys'
         | _, _ => false
         end) xs ys
  | RHash ps, RHash qs =>
      (fix all2 (ps qs : list (VALUE * VALUE)) {struct ps} : bool :=
         match ps, qs with
         | [], [] => true
         | (k, v) :: ps', (k', v') :: qs' =>
             VALUE_eqb k k' && VALUE_eqb v v' && all2 ps' qs'
         | _, _ => false
         end) ps qs
  | RTime s n, RTime s' n' => Z.eqb s s' && Z.eqb n n'
  | RObject c i, RObject c' i' => rstring_eqb c c' && N.eqb i i'
  | _, _ => false
  end.

(** ** The byte buffer *)

Definition writer : Type := list N -> outcome (list N).

Definition push_back (byte : N) : writer :=
  fun bytes => Ok (bytes ++ [byte]).

Definition skip : writer := fun bytes => Ok bytes.

Definition seq (f g : writer) : writer :=
  fun bytes => bind (f bytes) g.

Notation "f ;; g" := (seq f g) (at level 62, right associativity).

(** A [for] loop over [l] whose body appends to the buffer. *)
Definition for_each {A : Type} (body : A -> writer) : list A -> writer :=
  fix loop (l : list A) : writer :=
    match l with
    | [] => skip
    | x :: rest => body x ;; loop rest
    end.

(** [static_cast<uint8_t>] of a [char] of a Ruby or C++ string. *)
Definition uint8_of_char (c : byte) : N := Byte.to_N c.

(** The tags, as the character literals of the source. *)
Definition tag_n : N := 0x6e.
Definition tag_t : N := 0x74.
Definition tag_f : N := 0x66.
Definition tag_i : N := 0x69.
Definition tag_d : N := 0x64.
Definition tag_s : N := 0x73.
Definition tag_y : N := 0x79.
Definition tag_a : N := 0x61.
Definition tag_h : N := 0x68.
Definition tag_T : N := 0x54.
Definition tag_o : N := 0x6f.

(** ** FNV-1a 64-bit constants *)

Definition FNV_OFFSET : N := 0xcbf29ce484222325.
Definition FNV_PRIME : N := 0x100000001b3.
Definition MASK64 : N := 0xffffffffffffffff.

(** ** ZigZag and varint *)

(** [static_cast<uint64_t>] of an [int64_t]. *)
Definition uint64_of_int64 (num : Z) : N := Z.to_N (num mod 2 ^ 64).

(** Unary minus on [int64_t], with the two's complement result at
    [INT64_MIN]. *)
Definition int64_neg (num : Z) : Z :=
  ((- num + 2 ^ 63) mod 2 ^ 64 - 2 ^ 63)%Z.

Definition zigzag (num : Z) : N :=
  if (0 <=? num)%Z
  then N.shiftl (uint64_of_int64 num) 1 mod 2 ^ 64
  else (N.shiftl (uint64_of_int64 (int64_neg num)) 1 mod 2 ^ 64
        + (2 ^ 64 - 1)) mod 2 ^ 64.

(** [encode_varint]: the [do ... while (true)] loop, pushing one byte per
    round onto the buffer.  It ends because every round drops seven bits. *)
Equations? encode_varint_loop (num : N) (bytes : list N) : list N
  by wf (N.size_nat num) lt :=
  encode_varint_loop num bytes with N.eq_dec (N.shiftr num 7) 0 := {
    | left _ => bytes ++ [N.land num 0x7f]
    | right _ =>
        encode_varint_loop (N.shiftr num 7)
          (bytes ++ [N.lor (N.land num 0x7f) 0x80]) }.
Proof.
  destruct num as [|p]; [contradiction|].
  do 7 (destruct p as [p|p|]; try contradiction); cbn; lia.
Qed.

Definition encode_varint (num : N) : writer :=
  fun bytes => Ok (encode_varint_loop num bytes).

(** The bytes one call of [encode_varint] pushes. *)
Definition varint (num : N) : list N := encode_varint_loop num [].

(** ** [std::string] comparison and [std::sort] *)

(** [operator<] on [std::string]: lexicographic on the bytes taken as
    [unsigned char], a proper prefix first. *)
Fixpoint string_lt (a b : rstring) : bool :=
  match a, b with
  | _, [] => false
  | [], _ :: _ => true
  | x :: a', y :: b' =>
      if Byte.to_N x <? Byte.to_N y then true
      else if Byte.to_N y <? Byte.to_N x then false
      else string_lt a' b'
  end.

Section Sort.
Context {A : Type} (comp : A -> A -> bool).

(** One round of insertion sort: [val] goes in front of the first element
    it is less than. *)
Fixpoint linear_insert (val : A) (sorted : list A) : list A :=
  match sorted with
  | [] => [val]
  | x :: rest =>
      if comp val x then val :: x :: rest else x :: linear_insert val rest
  end.

(** [std::sort(first, last, comp)].  C++ fixes the result up to the order
    of elements that compare equivalent; the order taken here is the one
    insertion sort leaves, which is what the library runs on ranges of at
    most 16 elements.  On a longer range the library partitions first and
    may leave equivalent elements in another order, so what is stated of
    the program about tied elements below speaks of some sorted
    permutation, not of this one. *)
Definition std_sort (l : list A) : list A :=
  fold_left (fun sorted val => linear_insert val sorted) l [].
End Sort.

(** The lambda handed to [std::sort] in the [T_HASH] case. *)
Definition key_pair_lt (a b : rstring * VALUE) : bool :=
  string_lt (fst a) (fst b).

(** ** The serialiser *)

(** The [T_STRING] case; also what [canonical_serialize] does on the fresh
    String made by [rb_str_new] for a key of a Hash. *)
Definition serialize_string (tag : N) (s : rstring) : writer :=
  push_back tag ;;
  encode_varint (N.of_nat (List.length s)) ;;
  for_each (fun c => push_back (uint8_of_char c)) s.

(** The eight bytes of a double's bit pattern, [i = 7] down to [0]. *)
Definition float_byte (bits : N) (i : N) : N :=
  N.land (N.shiftr bits (i * 8)) 0xff.

Definition colon : byte := Byte.x3a.

Section Serializer.
(** What [rb_funcall(x, rb_intern("to_s"), 0)] gives for each value: Ruby
    dispatches it at run time, and the method may raise. *)
Variable rb_to_s : VALUE -> outcome rstring.

(** [rb_hash_aref(obj, key)] over the pairs of [obj], each value paired
    with what serialising it does; [nil] for a key that is not there. *)
Definition rb_hash_aref (table : list (VALUE * writer)) (key : VALUE) : writer :=
  match find (fun entry => VALUE_eqb key (fst entry)) table with
  | Some entry => snd entry
  | None => push_back tag_n
  end.

(** The first loop of the [T_HASH] case: each key with its [to_s]. *)
Fixpoint collect_keys (keys : list VALUE) : outcome (list (rstring * VALUE)) :=
  match keys with
  | [] => Ok []
  | key :: rest =>
      key_string <- rb_to_s key ;;;
      sorted_keys <- collect_keys rest ;;;
      Ok ((key_string, key) :: sorted_keys)
  end.

(** [canonical_serialize].  In the [T_HASH] case [table] holds, for every
    key of [obj], what serialising the value stored under it does, not yet
    run: [rb_hash_aref] picks the entry of the original key and only then is
    it run on the buffer, pair after pair in the sorted order, as in the
    source. *)
Fixpoint canonical_serialize (obj : VALUE) {struct obj} : writer :=
  match obj with
  | RNil => push_back tag_n
  | RTrue => push_back tag_t
  | RFalse => push_back tag_f
  | RInteger n =>
      push_back tag_i ;;
      (fun bytes => num <- NUM2LL n ;;; encode_varint (zigzag num) bytes)
  | RFloat bits =>
      push_back tag_d ;;
      for_each (fun i => push_back (float_byte bits i)) [7; 6; 5; 4; 3; 2; 1; 0]
  | RString s => serialize_string tag_s s
  | RSymbol name => serialize_string tag_y name
  | RArray elems =>
      push_back tag_a ;;
      encode_varint (N.of_nat (List.length elems)) ;;
      for_each canonical_serialize elems
  | RHash pairs =>
      let keys := map fst pairs in
      let table := map (fun p => (fst p, canonical_serialize (snd p))) pairs in
      push_back tag_h ;;
      encode_varint (N.of_nat (List.length keys)) ;;
      (fun bytes =>
         sorted_keys <- collect_keys keys ;;;
         for_each
           (fun key_pair =>
              serialize_string tag_s (fst key_pair) ;;
              rb_hash_aref table (snd key_pair))
           (std_sort key_pair_lt sorted_keys) bytes)
  | RTime to_i nsec =>
      push_back tag_T ;;
      (fun bytes => secs <- NUM2ULL to_i ;;; encode_varint secs bytes) ;;
      (fun bytes => nanos <- NUM2ULL nsec ;;; encode_varint nanos bytes)
  | RObject class_name _ =>
      push_back tag_o ;;
      (fun bytes =>
         obj_str <- rb_to_s obj ;;;
         let rep := class_name ++ [colon] ++ obj_str in
         (encode_varint (N.of_nat (List.length rep)) ;;
          for_each (fun c => push_back (uint8_of_char c)) rep) bytes)
  end.

(** The FNV-1a loop of [to_seed_int]. *)
Fixpoint fnv1a_loop (bytes : list N) (h : N) : N :=
  match bytes with
  | [] => h
  | byte :: rest =>
      let h := N.lxor h byte in
      let h := N.land ((h * FNV_PRIME) mod 2 ^ 64) MASK64 in
      fnv1a_loop rest h
  end.

Definition to_seed_int (obj : VALUE) : outcome N :=
  bytes <- canonical_serialize obj [] ;;;
  let h := fnv1a_loop bytes FNV_OFFSET in
  let s := N.lxor h (N.shiftr h 32) mod 2 ^ 32 in
  Ok (N.land s 0x7fffffff).

(** [seed_to_seed_int]: the [try] block returns [UINT2NUM(result)]; the
    [catch] clause takes a C++ exception and raises a RuntimeError; a Ruby
    exception is no C++ exception and passes through. *)
Definition seed_to_seed_int (obj : VALUE) : outcome VALUE :=
  match to_seed_int obj with
  | Ok result => Ok (RInteger (Z.of_N result))
  | CxxThrow what =>
      RubyRaise (rb_eRuntimeError (String.append "Error in seed calculation: " what))
  | RubyRaise e => RubyRaise e
  end.
End Serializer.

(** ** A host with Ruby's built-in [to_s] *)

(** [Integer#to_s]: the decimal digits, a minus sign in front of a negative
    number. *)
Definition Integer_to_s (n : Z) : rstring :=
  list_byte_of_string (NilZero.string_of_int (Z.to_int n)).

(** [to_s] as Ruby's core classes define it where that is plain text
    ([nil], [true], [false], Integer, String, Symbol); [other] stands for
    every remaining class. *)
Definition core_to_s (other : VALUE -> outcome rstring) (v : VALUE) : outcome rstring :=
  match v with
  | RNil => Ok []
  | RTrue => Ok (list_byte_of_string "true")
  | RFalse => Ok (list_byte_of_string "false")
  | RInteger n => Ok (Integer_to_s n)
  | RString s => Ok s
  | RSymbol name => Ok name
  | _ => other v
  end.

(** A host in which [to_s] of an object whose class is not one of the above
    raises: NoMethodError for the object numbered 0, ArgumentError for all
    others. *)
Definition raising_to_s (v : VALUE) : outcome rstring :=
  match v with
  | RObject _ 0 => RubyRaise (RbException "NoMethodError" "undefined method 'to_s'")
  | _ => RubyRaise (RbException "ArgumentError" "no rendering")
  end.

(** A host in which [to_s] of such an object is the text [obj]. *)
Definition plain_to_s (v : VALUE) : outcome rstring :=
  Ok (list_byte_of_string "obj").

(** ** The specification's wording, for comparison with the code *)

(** 64-bit FNV-1a as the specification words it: from the offset basis,
    [state = (state XOR byte) * prime (mod 2^64)] for each byte in order. *)
Definition fnv1a_spec (buffer : list N) : N :=
  fold_left
    (fun state byte => (N.lxor state byte * 0x100000001b3) mod 2 ^ 64)
    buffer 0xcbf29ce484222325.

(** The fold: [(h XOR (h >> 32))] truncated to 32 bits, top bit cleared. *)
Definition fold_spec (h : N) : N :=
  N.land (N.lxor h (N.shiftr h 32) mod 2 ^ 32) 0x7fffffff.

Definition seed_spec (buffer : list N) : N := fold_spec (fnv1a_spec buffer).

(** ZigZag as the specification words it: a non-negative [n] maps to [2n],
    a negative [n] to [2|n| - 1]. *)
Definition zigzag_spec (n : Z) : N :=
  if (0 <=? n)%Z then Z.to_N (2 * n) else Z.to_N (2 * Z.abs n - 1).

(** The eight bytes of a 64-bit pattern, most significant first. *)
Definition big_endian_bytes (bits : N) : list N :=
  [ bits / 2 ^ 56 mod 256; bits / 2 ^ 48 mod 256; bits / 2 ^ 40 mod 256;
    bits / 2 ^ 32 mod 256; bits / 2 ^ 24 mod 256; bits / 2 ^ 16 mod 256;
    bits / 2 ^ 8 mod 256; bits mod 256 ].

(** The bit patterns of the doubles [0.0] and [-0.0]. *)
Definition positive_zero_bits : N := 0.
Definition negative_zero_bits : N := 0x8000000000000000.

Definition is_ok {A : Type} (m : outcome A) : bool :=
  match m with Ok _ => true | _ => false end.

Definition in_long_long (n : Z) : bool :=
  ((- 2 ^ 63 <=? n) && (n <? 2 ^ 63))%Z.

Definition in_unsigned_long_long (n : Z) : bool :=
  ((- 2 ^ 63 <=? n) && (n <? 2 ^ 64))%Z.

(** No call into the Ruby runtime raises while [obj] is serialised: the
    Integers fit [long long], the fields of a Time are accepted by
    [NUM2ULL], and [to_s] returns for every key of a Hash and for every
    object serialised by class name and text. *)
Fixpoint host_quiet (rb_to_s : VALUE -> outcome rstring) (obj : VALUE) {struct obj} : bool :=
  match obj with
  | RInteger n => in_long_long n
  | RArray elems => forallb (host_quiet rb_to_s) elems
  | RHash pairs =>
      forallb (fun p => is_ok (rb_to_s (fst p)) && host_quiet rb_to_s (snd p)) pairs
  | RTime to_i nsec => in_unsigned_long_long to_i && in_unsigned_long_long nsec
  | RObject _ _ => is_ok (rb_to_s obj)
  | _ => true
  end.

(** The [T_HASH] case with each value carried next to its key, instead of
    being fetched by [rb_hash_aref]. *)
Definition pair_lt (a b : rstring * (VALUE * VALUE)) : bool :=
  string_lt (fst a) (fst b).

Fixpoint collect_pairs (rb_to_s : VALUE -> outcome rstring)
    (pairs : list (VALUE * VALUE)) : outcome (list (rstring * (VALUE * VALUE))) :=
  match pairs with
  | [] => Ok []
  | p :: rest =>
      key_string <- rb_to_s (fst p) ;;;
      rendered <- collect_pairs rb_to_s rest ;;;
      Ok ((key_string, p) :: rendered)
  end.

Definition serialize_hash_paired (rb_to_s : VALUE -> outcome rstring)
    (pairs : list (VALUE * VALUE)) : writer :=
  push_back tag_h ;;
  encode_varint (N.of_nat (List.length pairs)) ;;
  (fun bytes =>
     rendered <- collect_pairs rb_to_s pairs ;;;
     for_each
       (fun entry =>
          serialize_string tag_s (fst entry) ;;
          canonical_serialize rb_to_s (snd (snd entry)))
       (std_sort pair_lt rendered) bytes).

(** A function applied to the result of a call that returned. *)
Definition outcome_map {A B : Type} (f : A -> B) (m : outcome A) : outcome B :=
  x <- m ;;; Ok (f x).

(** The number a sequence of octets spells, most significant first. *)
Definition of_big_endian (octets : list N) : N :=
  fold_left (fun acc octet => acc * 256 + octet) octets 0.

(** The texts [to_s] gives for a list of keys, in order; the first failure
    if one of the calls raises. *)
Definition renderings (rb_to_s : VALUE -> outcome rstring)
    (keys : list VALUE) : outcome (list rstring) :=
  outcome_map (map fst) (collect_keys rb_to_s keys).

(** A writer that returns on every buffer. *)
Definition succeeds (w : writer) : Prop :=
  forall bytes, exists out, w bytes = Ok out.

(** Comparison of two elements by a string key, as the lambda of the
    [T_HASH] case does with [first]. *)
Definition by_key {A : Type} (key : A -> rstring) (a b : A) : bool :=
  string_lt (key a) (key b).

Definition key_lt {A : Type} (key : A -> rstring) (a b : A) : Prop :=
  string_lt (key a) (key b) = true.

(** The text of a key when [to_s] returns for it. *)
Definition rendering (rb_to_s : VALUE -> outcome rstring) (key : VALUE) : rstring :=
  match rb_to_s key with Ok s => s | _ => [] end.

(** A Hash written pair by pair in the order of the keys' texts: for each
    pair a String holding the text of the key, then the value. *)
Definition serialize_hash_by_rendering (rb_to_s : VALUE -> outcome rstring)
    (pairs : list (VALUE * VALUE)) : writer :=
  push_back tag_h ;;
  encode_varint (N.of_nat (List.length pairs)) ;;
  for_each
    (fun p =>
       serialize_string tag_s (rendering rb_to_s (fst p)) ;;
       canonical_serialize rb_to_s (snd p))
    (std_sort (by_key (fun p => rendering rb_to_s (fst p))) pairs).

(** ** Sample values *)

Definition text_1 : rstring := [Byte.x31].
Definition text_2 : rstring := [Byte.x32].
Definition text_a : rstring := [Byte.x61].
Definition text_b : rstring := [Byte.x62].

(** [{1 => "a", "1" => "b"}] and [{"1" => "b", 1 => "a"}]: the same pairs,
    inserted in the two orders; both keys have the text [1]. *)
Definition colliding_pairs : list (VALUE * VALUE) :=
  [(RInteger 1, RString text_a); (RString text_1, RString text_b)].


(** [{1 => true, 2 => false}] and [{2 => false, 1 => true}]. *)
Definition plain_pairs : list (VALUE * VALUE) :=
  [(RInteger 1, RTrue); (RInteger 2, RFalse)].

Definition plain_pairs_swapped : list (VALUE * VALUE) :=
  [(RInteger 2, RFalse); (RInteger 1, RTrue)].

(** A nested value on which no call into Ruby raises. *)
Definition quiet_sample : VALUE :=
  RHash [(RInteger 1, RArray [RFloat 0; RTime 5 7; RInteger (-3)]);
         (RSymbol text_a, RObject text_b 3)].

(** Two objects whose [to_s] raises under [raising_to_s]. *)
Definition object_without_to_s : VALUE := RObject text_a 0.
Definition object_with_failing_to_s : VALUE := RObject text_a 1.

(** ** Further notions used in the properties below *)

(** What a writer that only appends does to a buffer that is not empty:
    the same as to the empty one, behind what was there. *)
Definition prepend (bytes : list N) (m : outcome (list N)) : outcome (list N) :=
  outcome_map (app bytes) m.

(** A writer that only appends, and whose success does not depend on the
    buffer it finds. *)
Definition appends_only (w : writer) : Prop :=
  forall bytes, w bytes = prepend bytes (w []).

(** The character pushed first in each case of [canonical_serialize]. *)
Definition type_tag (obj : VALUE) : N :=
  match obj with
  | RNil => tag_n
  | RTrue => tag_t
  | RFalse => tag_f
  | RInteger _ => tag_i
  | RFloat _ => tag_d
  | RString _ => tag_s
  | RSymbol _ => tag_y
  | RArray _ => tag_a
  | RHash _ => tag_h
  | RTime _ _ => tag_T
  | RObject _ _ => tag_o
  end.

(** Two values the serialiser does not tell apart, on any buffer. *)
Definition same_encoding (rb_to_s : VALUE -> outcome rstring) (v w : VALUE) : Prop :=
  forall bytes, canonical_serialize rb_to_s v bytes = canonical_serialize rb_to_s w bytes.

(** What each case of [canonical_serialize] does after it has pushed its
    tag. *)
Definition payload (rb_to_s : VALUE -> outcome rstring) (obj : VALUE) : writer :=
  match obj with
  | RNil | RTrue | RFalse => skip
  | RInteger n =>
      fun bytes => num <- NUM2LL n ;;; encode_varint (zigzag num) bytes
  | RFloat bits =>
      for_each (fun i => push_back (float_byte bits i)) [7; 6; 5; 4; 3; 2; 1; 0]
  | RString s | RSymbol s =>
      encode_varint (N.of_nat (List.length s)) ;;
      for_each (fun c => push_back (uint8_of_char c)) s
  | RArray elems =>
      encode_varint (N.of_nat (List.length elems)) ;;
      for_each (canonical_serialize rb_to_s) elems
  | RHash pairs =>
      let keys := map fst pairs in
      let table := map (fun p => (fst p, canonical_serialize rb_to_s (snd p))) pairs in
      encode_varint (N.of_nat (List.length keys)) ;;
      (fun bytes =>
         sorted_keys <- collect_keys rb_to_s keys ;;;
         for_each
           (fun key_pair =>
              serialize_string tag_s (fst key_pair) ;;
              rb_hash_aref table (snd key_pair))
           (std_sort key_pair_lt sorted_keys) bytes)
  | RTime to_i nsec =>
      (fun bytes => secs <- NUM2ULL to_i ;;; encode_varint secs bytes) ;;
      (fun bytes => nanos <- NUM2ULL nsec ;;; encode_varint nanos bytes)
  | RObject class_name _ =>
      fun bytes =>
        obj_str <- rb_to_s obj ;;;
        let rep := class_name ++ [colon] ++ obj_str in
        (encode_varint (N.of_nat (List.length rep)) ;;
         for_each (fun c => push_back (uint8_of_char c)) rep) bytes
  end.

(** Every Hash reached through the elements of Arrays and the values of
    Hashes has pairwise distinct keys, as a Ruby Hash has. *)
Fixpoint maps_well_formed (obj : VALUE) {struct obj} : Prop :=
  match obj with
  | RArray elems =>
      fold_right (fun x rest => maps_well_formed x /\ rest) True elems
  | RHash pairs =>
      NoDup (map fst pairs) /\
      fold_right (fun p rest => maps_well_formed (snd p) /\ rest) True pairs
  | _ => True
  end.

(** The comparison [std::sort] makes in reverse: [a] may stay in front of
    [b]. *)
Definition key_le {A : Type} (key : A -> rstring) (a b : A) : Prop :=
  string_lt (key b) (key a) = false.

(** ** More sample values *)

(** A host in which the object numbered 0 has the text [:b:1] and every
    other object the text [1]. *)
Definition labelled_to_s (v : VALUE) : outcome rstring :=
  match v with
  | RObject _ 0 => Ok [Byte.x3a; Byte.x62; Byte.x3a; Byte.x31]
  | _ => Ok text_1
  end.

(** An object of class [a] and one of class [a::b]. *)
Definition object_of_outer_class : VALUE := RObject text_a 0.
Definition object_of_nested_class : VALUE :=
  RObject [Byte.x61; Byte.x3a; Byte.x3a; Byte.x62] 1.

(** The number whose seven-bit groups, least significant first, are the low
    seven bits of the given bytes. *)
Definition of_varint (bytes : list N) : N :=
  fold_right (fun byte rest => byte mod 128 + 128 * rest) 0 bytes.

(** A byte sequence that is the encoding of some value. *)
Definition is_encoding (rb_to_s : VALUE -> outcome rstring) (enc : list N) : Prop :=
  exists w, canonical_serialize rb_to_s w [] = Ok enc.

(** A byte sequence no encoding extends or cuts short: whatever follows it
    in a stream, it is the only encoding the stream can start with. *)
Definition delimits_itself (rb_to_s : VALUE -> outcome rstring) (enc : list N) : Prop :=
  forall other rest rest',
    is_encoding rb_to_s other ->
    enc ++ rest = other ++ rest' -> enc = other /\ rest = rest'.

(** A length in front of the bytes it counts: what follows the tag of a
    String, a Symbol or an object. *)
Definition length_prefixed (s : rstring) : list N :=
  varint (N.of_nat (List.length s)) ++ map uint8_of_char s.

(** One pair as it is written for a Hash over [values]: the text of the key
    as a String, then the encoding of [nil] or of one of the values. *)
Definition pair_written (rb_to_s : VALUE -> outcome rstring) (values : list VALUE)
    (comp : list N) : Prop :=
  exists r e v,
    comp = (tag_s :: length_prefixed r) ++ e /\
    (v = RNil \/ In v values) /\
    canonical_serialize rb_to_s v [] = Ok e.

(** * Properties *)

(** ** Varint *)

Lemma land_0x7f (n : N) : N.land n 0x7f = n mod 128.
Proof. change 0x7f with (N.ones 7). rewrite N.land_ones. reflexivity. Qed.

Lemma shiftr_7 (n : N) : N.shiftr n 7 = n / 128.
Proof. rewrite N.shiftr_div_pow2. reflexivity. Qed.

Lemma lor_0x80 (x : N) : x < 128 -> N.lor x 0x80 = x + 128.
Proof.
  intros H. destruct x as [|p]; [reflexivity|].
  do 7 (destruct p as [p|p|]; try lia; try reflexivity).
Qed.

Lemma shiftr_7_lt (num : N) : N.shiftr num 7 <> 0 -> N.shiftr num 7 < num.
Proof. rewrite shiftr_7. intros H. apply N.div_lt; [|lia]. destruct num; [elim H; reflexivity | lia]. Qed.

Lemma encode_varint_loop_app (num : N) (bytes : list N) :
  encode_varint_loop num bytes = bytes ++ varint num.
Proof.
  unfold varint. revert bytes.
  induction num as [num IH] using (well_founded_induction N.lt_wf_0).
  intros bytes.
  rewrite (encode_varint_loop_equation_1 num bytes), (encode_varint_loop_equation_1 num []).
  destruct (N.eq_dec (N.shiftr num 7) 0) as [Hz|Hnz];
    unfold encode_varint_loop_unfold_clause_1; cbn [app].
  - reflexivity.
  - rewrite (IH _ (shiftr_7_lt _ Hnz) (bytes ++ _)), (IH _ (shiftr_7_lt _ Hnz) [_]).
    rewrite <- app_assoc. reflexivity.
Qed.

Lemma varint_unfold (num : N) :
  varint num =
  if N.shiftr num 7 =? 0 then [N.land num 0x7f]
  else N.lor (N.land num 0x7f) 0x80 :: varint (N.shiftr num 7).
Proof.
  unfold varint at 1. rewrite encode_varint_loop_equation_1.
  destruct (N.eq_dec (N.shiftr num 7) 0) as [Hz|Hnz];
    unfold encode_varint_loop_unfold_clause_1; cbn [app].
  - rewrite Hz. reflexivity.
  - apply N.eqb_neq in Hnz as ->. apply (encode_varint_loop_app _ [_]).
Qed.

Lemma varint_small (num : N) : num < 128 -> varint num = [num].
Proof.
  intros H. rewrite varint_unfold, shiftr_7, land_0x7f.
  rewrite N.div_small, N.mod_small by assumption. reflexivity.
Qed.

Lemma varint_large (num : N) :
  128 <= num -> varint num = (num mod 128 + 128) :: varint (num / 128).
Proof.
  intros H. rewrite varint_unfold, shiftr_7, land_0x7f.
  assert (Hq : num / 128 <> 0).
  { intros Hq. apply N.div_small_iff in Hq; lia. }
  apply N.eqb_neq in Hq as ->.
  rewrite lor_0x80 by (apply N.mod_lt; lia). reflexivity.
Qed.

Lemma varint_nonempty (num : N) : varint num <> [].
Proof.
  destruct (N.lt_ge_cases num 128) as [H|H].
  - rewrite varint_small by assumption. discriminate.
  - rewrite varint_large by assumption. discriminate.
Qed.

(** A varint begins some number of bytes with the high bit set and ends at one without. *)
Lemma varint_shape (num : N) :
  exists (init : list N) (final : N),
    (varint num = init ++ [final]) /\ (final < 128) /\
    (Forall (fun b => 128 <= b /\ b < 256) init).
Proof.
  induction num as [num IH] using (well_founded_induction N.lt_wf_0).
  destruct (N.lt_ge_cases num 128) as [H|H].
  - exists [], num. rewrite varint_small by assumption. auto.
  - destruct (IH (num / 128)) as (init & last & E & Hl & Hi).
    { apply N.div_lt; lia. }
    exists ((num mod 128 + 128) :: init), last.
    rewrite varint_large, E by assumption.
    split; [reflexivity|]. split; [assumption|].
    constructor; [|assumption].
    assert (Hm : num mod 128 < 128) by (apply N.mod_lt; lia).
    clear - Hm. generalize dependent (num mod 128). intros. lia.
Qed.

Lemma varint_prefix_free (a b : N) (r1 r2 : list N) :
  varint a ++ r1 = varint b ++ r2 -> a = b /\ r1 = r2.
Proof.
  revert b.
  induction a as [a IH] using (well_founded_induction N.lt_wf_0).
  intros b E.
  pose proof (N.div_mod a 128) as Da. pose proof (N.div_mod b 128) as Db.
  assert (Ha : a mod 128 < 128) by (apply N.mod_lt; lia).
  assert (Hb : b mod 128 < 128) by (apply N.mod_lt; lia).
  destruct (N.lt_ge_cases a 128) as [Ha'|Ha'], (N.lt_ge_cases b 128) as [Hb'|Hb'].
  - rewrite (varint_small a), (varint_small b) in E by assumption. cbn in E.
    inversion E. auto.
  - rewrite (varint_small a), (varint_large b) in E by assumption. cbn in E.
    inversion E as [[E1 E2]]. exfalso. clear - E1 Ha'. 
    generalize dependent (b mod 128). intros. lia.
  - rewrite (varint_large a), (varint_small b) in E by assumption. cbn in E.
    inversion E as [[E1 E2]]. exfalso. clear - E1 Hb'. 
    generalize dependent (a mod 128). intros. lia.
  - rewrite (varint_large a), (varint_large b) in E by assumption. cbn in E.
    inversion E as [[E1 E2]].
    apply IH in E2; [|apply N.div_lt; lia]. destruct E2 as [E2 E3].
    split; [|exact E3].
    apply N.add_cancel_r in E1. rewrite Da, Db by lia. rewrite E1, E2. reflexivity.
Qed.

Lemma varint_length_bound (k : nat) (num : N) :
  num < 128 ^ N.of_nat (S k) -> (List.length (varint num) <= S k)%nat.
Proof.
  revert num. induction k as [|k IH]; intros num H.
  - rewrite varint_small by exact H. cbn [List.length]. lia.
  - destruct (N.lt_ge_cases num 128) as [Hs|Hl].
    + rewrite varint_small by exact Hs. cbn [List.length]. lia.
    + rewrite varint_large by exact Hl. cbn [List.length].
      apply le_n_S. apply IH.
      apply N.Div0.div_lt_upper_bound.
      rewrite <- N.pow_succ_r'. rewrite <- Nat2N.inj_succ. exact H.
Qed.

Lemma varint_length_64 (num : N) :
  num < 2 ^ 64 -> (List.length (varint num) <= 10)%nat.
Proof.
  intros H. apply (varint_length_bound 9).
  eapply N.lt_trans; [exact H|]. reflexivity.
Qed.

(** C10. [encode_varint] appends at least one byte, the single byte [0x00]
    for zero and at most ten bytes for a 64-bit number; it is injective;
    every byte but the last has the high bit set and the last has it clear;
    so a varint followed by anything reads back in one way only. *)
Theorem varint_self_delimiting :
  (forall num bytes, encode_varint num bytes = Ok (bytes ++ varint num)) /\
  (forall num, (1 <= List.length (varint num))%nat) /\
  varint 0 = [0x00] /\
  (forall num, num < 2 ^ 64 -> (List.length (varint num) <= 10)%nat) /\
  (forall a b, varint a = varint b -> a = b) /\
  (forall num, exists init final,
     varint num = init ++ [final] /\ final < 128 /\
     Forall (fun b => 128 <= b /\ b < 256) init) /\
  (forall a b rest_a rest_b,
     varint a ++ rest_a = varint b ++ rest_b -> a = b /\ rest_a = rest_b).
Proof.
  repeat apply conj.
  - intros num bytes. unfold encode_varint. rewrite encode_varint_loop_app. reflexivity.
  - intros num. pose proof (varint_nonempty num) as H.
    destruct (varint num); [contradiction | cbn [List.length]; lia].
  - apply varint_small. reflexivity.
  - apply varint_length_64.
  - intros a b E. apply (varint_prefix_free a b [] []). rewrite E. reflexivity.
  - apply varint_shape.
  - apply varint_prefix_free.
Qed.

Lemma varint_self_delimiting_witness :
  (List.length (varint 300) <= 10)%nat /\ (300 = 300 /\ [tag_n] = [tag_n]).
Proof.
  split.
  - apply (proj1 (proj2 (proj2 (proj2 varint_self_delimiting))) 300). reflexivity.
  - apply (proj2 (proj2 (proj2 (proj2 (proj2 (proj2 varint_self_delimiting)))))
             300 300 [tag_n] [tag_n]).
    reflexivity.
Defined.

(** ** The hash and the fold *)

Lemma land_MASK64 (x : N) : N.land (x mod 2 ^ 64) MASK64 = x mod 2 ^ 64.
Proof.
  change MASK64 with (N.ones 64). rewrite N.land_ones.
  apply N.mod_small. apply N.mod_lt. discriminate.
Qed.

Lemma fnv1a_loop_spec (bytes : list N) (h : N) :
  fnv1a_loop bytes h =
  fold_left (fun state byte => (N.lxor state byte * 0x100000001b3) mod 2 ^ 64) bytes h.
Proof.
  revert h. induction bytes as [|byte rest IH]; intros h; cbn [fnv1a_loop fold_left].
  - reflexivity.
  - rewrite land_MASK64. apply IH.
Qed.

(** C6. For every value the seed is the fold of the FNV-1a digest of its
    canonical encoding, as the specification words both: the state starts at
    [0xcbf29ce484222325], each byte of the buffer in order turns it into
    [(state XOR byte) * 0x100000001b3 mod 2^64], and the result is
    [(h XOR (h >> 32))] truncated to 32 bits with the top bit cleared.  When
    the encoding raises, so does [to_seed_int]. *)
Theorem to_seed_int_is_fnv1a_fold (rb_to_s : VALUE -> outcome rstring) (v : VALUE) :
  to_seed_int rb_to_s v = outcome_map seed_spec (canonical_serialize rb_to_s v []).
Proof.
  unfold to_seed_int, outcome_map, seed_spec, fold_spec, fnv1a_spec.
  destruct (canonical_serialize rb_to_s v []) as [bytes|e|what]; cbn [bind]; try reflexivity.
  rewrite fnv1a_loop_spec. reflexivity.
Qed.

Lemma land_0x7fffffff (s : N) : N.land s 0x7fffffff <= 2 ^ 31 - 1.
Proof.
  change 0x7fffffff with (N.ones 31). rewrite N.land_ones.
  assert (H : s mod 2 ^ 31 < 2 ^ 31) by (apply N.mod_lt; discriminate).
  revert H. generalize (s mod 2 ^ 31). intros r H.
  change (2 ^ 31) with 2147483648 in *. lia.
Qed.

Lemma Ok_inj {A : Type} (a b : A) : Ok a = Ok b -> a = b.
Proof. intros E. injection E as E. exact E. Qed.

Lemma to_seed_int_range (rb_to_s : VALUE -> outcome rstring) (v : VALUE) (s : N) :
  to_seed_int rb_to_s v = Ok s -> 0 <= s <= 2 ^ 31 - 1.
Proof.
  unfold to_seed_int.
  destruct (canonical_serialize rb_to_s v []) as [bytes|e|what]; cbn [bind].
  - intros E. apply Ok_inj in E. subst s. split.
    + apply N.le_0_l.
    + apply land_0x7fffffff.
  - discriminate.
  - discriminate.
Qed.

(** ** Scalars *)

(** C7. The literal fixtures: [nil] encodes to [0x6e], [true] to [0x74],
    the Integer 5 to [0x69 0x0a], the Integer -1 to [0x69 0x01], the empty
    Array to [0x61 0x00] and the empty Hash to [0x68 0x00]. *)
Theorem fixtures (rb_to_s : VALUE -> outcome rstring) :
  canonical_serialize rb_to_s RNil [] = Ok [0x6e] /\
  canonical_serialize rb_to_s RTrue [] = Ok [0x74] /\
  canonical_serialize rb_to_s (RInteger 5) [] = Ok [0x69; 0x0a] /\
  canonical_serialize rb_to_s (RInteger (-1)) [] = Ok [0x69; 0x01] /\
  canonical_serialize rb_to_s (RArray []) [] = Ok [0x61; 0x00] /\
  canonical_serialize rb_to_s (RHash []) [] = Ok [0x68; 0x00].
Proof. repeat apply conj; vm_compute; reflexivity. Qed.

Lemma zigzag_correct (n : Z) :
  (- 2 ^ 63 <= n < 2 ^ 63)%Z -> zigzag n = zigzag_spec n.
Proof.
  intros H. unfold zigzag, zigzag_spec, uint64_of_int64, int64_neg.
  rewrite !N.shiftl_mul_pow2. change (2 ^ 1) with 2.
  destruct (0 <=? n)%Z eqn:Hs.
  - apply Z.leb_le in Hs. rewrite Z.mod_small by lia.
    rewrite N.mod_small by lia. lia.
  - apply Z.leb_gt in Hs.
    destruct (Z.eq_dec n (- 2 ^ 63)) as [->|Hmin]; [vm_compute; reflexivity|].
    rewrite (Z.mod_small (- n + 2 ^ 63)) by lia.
    replace (- n + 2 ^ 63 - 2 ^ 63)%Z with (- n)%Z by lia.
    rewrite Z.mod_small by lia.
    rewrite (N.mod_small (Z.to_N (- n) * 2)) by lia.
    symmetry. apply (N.mod_unique _ _ 1); lia.
Qed.

(** C4, as amended.  An Integer that fits 64 bits signed encodes, as the tag
    [i] and the varint of its zigzag image; for an Integer outside that range
    [NUM2LL] raises a RangeError and nothing is encoded. *)
Theorem integer_encoding (rb_to_s : VALUE -> outcome rstring) (n : Z) :
  ((- 2 ^ 63 <= n < 2 ^ 63)%Z ->
   canonical_serialize rb_to_s (RInteger n) [] = Ok (tag_i :: varint (zigzag_spec n))) /\
  (~ (- 2 ^ 63 <= n < 2 ^ 63)%Z ->
   exists e, canonical_serialize rb_to_s (RInteger n) [] = RubyRaise e /\
             exc_class e = "RangeError"%string).
Proof.
  cbn [canonical_serialize]. unfold seq, push_back, NUM2LL, encode_varint. cbn [bind app].
  split; intros H.
  - replace ((- 2 ^ 63 <=? n)%Z && (n <? 2 ^ 63)%Z) with true
      by (symmetry; apply andb_true_iff; split; [apply Z.leb_le | apply Z.ltb_lt]; lia).
    cbn [bind]. rewrite (encode_varint_loop_app _ [tag_i]), zigzag_correct by assumption.
    reflexivity.
  - replace ((- 2 ^ 63 <=? n)%Z && (n <? 2 ^ 63)%Z) with false.
    + cbn [bind]. eexists. split; reflexivity.
    + symmetry. apply andb_false_iff.
      destruct (Z.leb_spec (- 2 ^ 63) n); [right; apply Z.ltb_ge; lia | left; reflexivity].
Qed.

(** ** Floats *)

Lemma float_byte_div (bits i : N) : float_byte bits i = bits / 2 ^ (i * 8) mod 256.
Proof.
  unfold float_byte. change 0xff with (N.ones 8).
  rewrite N.land_ones, N.shiftr_div_pow2. reflexivity.
Qed.

Lemma div_step (b m : N) :
  m <> 0 -> b / m = 256 * (b / (m * 256)) + b / m mod 256.
Proof.
  intros Hm. rewrite <- N.Div0.div_div.
  apply N.div_mod. discriminate.
Qed.

Lemma of_big_endian_bytes (bits : N) :
  bits < 2 ^ 64 -> of_big_endian (big_endian_bytes bits) = bits.
Proof.
  intros H. unfold of_big_endian, big_endian_bytes. cbn [fold_left].
  pose proof (div_step bits 1) as S0. rewrite N.div_1_r in S0.
  pose proof (div_step bits (2 ^ 8)) as S1.
  pose proof (div_step bits (2 ^ 16)) as S2.
  pose proof (div_step bits (2 ^ 24)) as S3.
  pose proof (div_step bits (2 ^ 32)) as S4.
  pose proof (div_step bits (2 ^ 40)) as S5.
  pose proof (div_step bits (2 ^ 48)) as S6.
  pose proof (div_step bits (2 ^ 56)) as S7.
  change (1 * 256) with (2 ^ 8) in S0.
  change (2 ^ 8 * 256) with (2 ^ 16) in S1.
  change (2 ^ 16 * 256) with (2 ^ 24) in S2.
  change (2 ^ 24 * 256) with (2 ^ 32) in S3.
  change (2 ^ 32 * 256) with (2 ^ 40) in S4.
  change (2 ^ 40 * 256) with (2 ^ 48) in S5.
  change (2 ^ 48 * 256) with (2 ^ 56) in S6.
  change (2 ^ 56 * 256) with (2 ^ 64) in S7.
  rewrite (N.div_small bits (2 ^ 64)) in S7 by assumption.
  specialize (S0 ltac:(discriminate)). specialize (S1 ltac:(discriminate)).
  specialize (S2 ltac:(discriminate)). specialize (S3 ltac:(discriminate)).
  specialize (S4 ltac:(discriminate)). specialize (S5 ltac:(discriminate)).
  specialize (S6 ltac:(discriminate)). specialize (S7 ltac:(discriminate)).
  clear H.
  revert S0 S1 S2 S3 S4 S5 S6 S7.
  generalize (bits mod 256) (bits / 2 ^ 8 mod 256) (bits / 2 ^ 16 mod 256)
    (bits / 2 ^ 24 mod 256) (bits / 2 ^ 32 mod 256) (bits / 2 ^ 40 mod 256)
    (bits / 2 ^ 48 mod 256) (bits / 2 ^ 56 mod 256).
  generalize (bits / 2 ^ 8) (bits / 2 ^ 16) (bits / 2 ^ 24) (bits / 2 ^ 32)
    (bits / 2 ^ 40) (bits / 2 ^ 48) (bits / 2 ^ 56).
  intros. lia.
Qed.

Lemma big_endian_bytes_inj (b1 b2 : N) :
  b1 < 2 ^ 64 -> b2 < 2 ^ 64 ->
  big_endian_bytes b1 = big_endian_bytes b2 -> b1 = b2.
Proof.
  intros H1 H2 E.
  rewrite <- (of_big_endian_bytes b1 H1), <- (of_big_endian_bytes b2 H2), E.
  reflexivity.
Qed.

(** C8. A Float encodes as the tag [d] and the eight bytes of its bit
    pattern, most significant first; two distinct 64-bit patterns give
    different encodings; the seeds of [0.0] and [-0.0] differ. *)
Theorem float_encoding (rb_to_s : VALUE -> outcome rstring) :
  (forall bits,
     canonical_serialize rb_to_s (RFloat bits) [] = Ok (tag_d :: big_endian_bytes bits)) /\
  (forall b1 b2, b1 < 2 ^ 64 -> b2 < 2 ^ 64 -> b1 <> b2 ->
     canonical_serialize rb_to_s (RFloat b1) [] <> canonical_serialize rb_to_s (RFloat b2) []) /\
  to_seed_int rb_to_s (RFloat positive_zero_bits)
    <> to_seed_int rb_to_s (RFloat negative_zero_bits).
Proof.
  assert (Enc : forall bits,
    canonical_serialize rb_to_s (RFloat bits) [] = Ok (tag_d :: big_endian_bytes bits)).
  { intros bits. cbn [canonical_serialize for_each]. unfold seq, push_back, skip.
    cbn [bind app]. rewrite !float_byte_div.
    change (2 ^ (0 * 8)) with 1. rewrite N.div_1_r. reflexivity. }
  split; [exact Enc|]. split.
  - intros b1 b2 H1 H2 Hne E. rewrite !Enc in E. apply Ok_inj in E.
    apply (f_equal (@tl N)) in E. cbn [tl] in E.
    apply Hne. apply big_endian_bytes_inj; assumption.
  - vm_compute. discriminate.
Qed.

(** ** Times *)

Lemma NUM2ULL_in_range (n : Z) :
  (- 2 ^ 63 <= n < 2 ^ 64)%Z -> NUM2ULL n = Ok (Z.to_N (n mod 2 ^ 64)).
Proof.
  intros H. unfold NUM2ULL.
  replace ((- 2 ^ 63 <=? n)%Z && (n <? 2 ^ 64)%Z) with true; [reflexivity|].
  symmetry. apply andb_true_iff. split; [apply Z.leb_le | apply Z.ltb_lt]; lia.
Qed.

Lemma NUM2ULL_out_of_range (n : Z) :
  ~ (- 2 ^ 63 <= n < 2 ^ 64)%Z ->
  exists message, NUM2ULL n = RubyRaise (rb_eRangeError message).
Proof.
  intros H. unfold NUM2ULL.
  replace ((- 2 ^ 63 <=? n)%Z && (n <? 2 ^ 64)%Z) with false;
    [destruct ((- 2 ^ 64 <? n)%Z && (n <? 0)%Z); eexists; reflexivity|].
  symmetry. apply andb_false_iff.
  destruct (Z.leb_spec (- 2 ^ 63) n); [right; apply Z.ltb_ge; lia | left; reflexivity].
Qed.

(** C9, as amended.  A Time whose seconds lie in [-2^63 .. 2^64 - 1] encodes
    as the tag [T], the varint of the seconds taken modulo [2^64] (so a
    negative count of seconds is its two's complement) and the varint of the
    nanoseconds; for seconds outside that range [NUM2ULL] raises a RangeError
    and nothing is encoded. *)
Theorem time_encoding (rb_to_s : VALUE -> outcome rstring) (to_i nsec : Z) :
  ((- 2 ^ 63 <= to_i < 2 ^ 64)%Z -> (0 <= nsec < 10 ^ 9)%Z ->
   canonical_serialize rb_to_s (RTime to_i nsec) [] =
   Ok (tag_T :: varint (Z.to_N (to_i mod 2 ^ 64)) ++ varint (Z.to_N nsec))) /\
  (~ (- 2 ^ 63 <= to_i < 2 ^ 64)%Z ->
   exists e, canonical_serialize rb_to_s (RTime to_i nsec) [] = RubyRaise e /\
             exc_class e = "RangeError"%string).
Proof.
  cbn [canonical_serialize]. unfold seq, push_back, encode_varint. cbn [bind app].
  split.
  - intros Hs Hn. rewrite (NUM2ULL_in_range to_i) by assumption. cbn [bind].
    rewrite (NUM2ULL_in_range nsec) by lia. cbn [bind].
    rewrite (Z.mod_small nsec) by lia.
    rewrite !encode_varint_loop_app. rewrite <- app_assoc. reflexivity.
  - intros Hs. destruct (NUM2ULL_out_of_range to_i Hs) as [message ->]. cbn [bind].
    eexists. split; reflexivity.
Qed.

(** ** Induction over values, through the lists they nest *)

Lemma VALUE_nested_ind (P : VALUE -> Prop) :
  P RNil -> P RTrue -> P RFalse ->
  (forall n, P (RInteger n)) ->
  (forall bits, P (RFloat bits)) ->
  (forall s, P (RString s)) ->
  (forall name, P (RSymbol name)) ->
  (forall elems, Forall P elems -> P (RArray elems)) ->
  (forall pairs, Forall (fun p => P (fst p) /\ P (snd p)) pairs -> P (RHash pairs)) ->
  (forall to_i nsec, P (RTime to_i nsec)) ->
  (forall class_name object_id, P (RObject class_name object_id)) ->
  forall v, P v.
Proof.
  intros Hnil Htrue Hfalse Hint Hfloat Hstr Hsym Harr Hhash Htime Hobj.
  fix IH 1. intros [| | |n|bits|s|name|elems|pairs|to_i nsec|class_name object_id].
  - exact Hnil.
  - exact Htrue.
  - exact Hfalse.
  - apply Hint.
  - apply Hfloat.
  - apply Hstr.
  - apply Hsym.
  - apply Harr. induction elems as [|x rest IHrest]; constructor; [apply IH | exact IHrest].
  - apply Hhash. induction pairs as [|[k v] rest IHrest]; constructor;
      [split; apply IH | exact IHrest].
  - apply Htime.
  - apply Hobj.
Qed.

(** ** Writers that succeed *)

Lemma succeeds_push_back (byte : N) : succeeds (push_back byte).
Proof. intros bytes. eexists. reflexivity. Qed.

Lemma succeeds_encode_varint (num : N) : succeeds (encode_varint num).
Proof. intros bytes. eexists. reflexivity. Qed.

Lemma succeeds_seq (f g : writer) : succeeds f -> succeeds g -> succeeds (f ;; g).
Proof.
  intros Hf Hg bytes. unfold seq. destruct (Hf bytes) as [mid ->]. cbn [bind]. apply Hg.
Qed.

Lemma succeeds_for_each {A : Type} (body : A -> writer) (l : list A) :
  (forall x, In x l -> succeeds (body x)) -> succeeds (for_each body l).
Proof.
  induction l as [|x rest IH]; intros H; cbn [for_each].
  - intros bytes. eexists. reflexivity.
  - apply succeeds_seq; [apply H; left; reflexivity|].
    apply IH. intros y Hy. apply H. right. exact Hy.
Qed.

Lemma succeeds_serialize_string (tag : N) (s : rstring) :
  succeeds (serialize_string tag s).
Proof.
  unfold serialize_string.
  apply succeeds_seq; [apply succeeds_push_back|].
  apply succeeds_seq; [apply succeeds_encode_varint|].
  apply succeeds_for_each. intros c _. apply succeeds_push_back.
Qed.

(** ** [std::sort] permutes its range *)

Lemma linear_insert_perm {A : Type} (comp : A -> A -> bool) (val : A) (sorted : list A) :
  Permutation (linear_insert comp val sorted) (val :: sorted).
Proof.
  induction sorted as [|x rest IH]; cbn [linear_insert].
  - apply Permutation_refl.
  - destruct (comp val x).
    + apply Permutation_refl.
    + eapply perm_trans; [apply perm_skip, IH | apply perm_swap].
Qed.

Lemma fold_insert_perm {A : Type} (comp : A -> A -> bool) (l acc : list A) :
  Permutation (fold_left (fun sorted val => linear_insert comp val sorted) l acc) (l ++ acc).
Proof.
  revert acc. induction l as [|x rest IH]; intros acc; cbn [fold_left app].
  - apply Permutation_refl.
  - eapply perm_trans; [apply IH|].
    eapply perm_trans; [apply Permutation_app_head, linear_insert_perm|].
    symmetry. apply Permutation_middle.
Qed.

Lemma std_sort_perm {A : Type} (comp : A -> A -> bool) (l : list A) :
  Permutation (std_sort comp l) l.
Proof.
  unfold std_sort. eapply perm_trans; [apply fold_insert_perm|].
  rewrite app_nil_r. apply Permutation_refl.
Qed.

Section Totality.
Variable rb_to_s : VALUE -> outcome rstring.

Lemma collect_keys_ok (keys : list VALUE) :
  forallb (fun k => is_ok (rb_to_s k)) keys = true ->
  exists sorted_keys,
    collect_keys rb_to_s keys = Ok sorted_keys /\ map snd sorted_keys = keys.
Proof.
  induction keys as [|k rest IH]; cbn [forallb collect_keys]; intros H.
  - exists []. split; reflexivity.
  - apply andb_true_iff in H as [Hk Hrest].
    destruct (rb_to_s k) as [s| |]; try discriminate.
    destruct (IH Hrest) as (l & -> & El). cbn [bind].
    exists ((s, k) :: l). split; [reflexivity|]. cbn [map snd]. rewrite El. reflexivity.
Qed.

Lemma succeeds_rb_hash_aref (table : list (VALUE * writer)) (key : VALUE) :
  (forall entry, In entry table -> succeeds (snd entry)) ->
  succeeds (rb_hash_aref table key).
Proof.
  intros H. unfold rb_hash_aref.
  destruct (find (fun entry => VALUE_eqb key (fst entry)) table) as [entry|] eqn:E.
  - apply H. apply find_some in E. apply E.
  - apply succeeds_push_back.
Qed.

Lemma host_quiet_succeeds (v : VALUE) :
  host_quiet rb_to_s v = true -> succeeds (canonical_serialize rb_to_s v).
Proof.
  induction v as [| | |n|bits|s|name|elems IH|pairs IH|to_i nsec|class_name object_id]
    using VALUE_nested_ind; cbn [host_quiet canonical_serialize]; intros Q.
  - apply succeeds_push_back.
  - apply succeeds_push_back.
  - apply succeeds_push_back.
  - apply succeeds_seq; [apply succeeds_push_back|]. intros bytes.
    unfold NUM2LL. unfold in_long_long in Q. rewrite Q. cbn [bind].
    apply succeeds_encode_varint.
  - apply succeeds_seq; [apply succeeds_push_back|].
    apply succeeds_for_each. intros i _. apply succeeds_push_back.
  - apply succeeds_serialize_string.
  - apply succeeds_serialize_string.
  - apply succeeds_seq; [apply succeeds_push_back|].
    apply succeeds_seq; [apply succeeds_encode_varint|].
    apply succeeds_for_each. intros x Hx.
    rewrite Forall_forall in IH. apply IH; [exact Hx|].
    rewrite forallb_forall in Q. apply Q. exact Hx.
  - apply succeeds_seq; [apply succeeds_push_back|].
    apply succeeds_seq; [apply succeeds_encode_varint|].
    intros bytes.
    rewrite forallb_forall in Q. rewrite Forall_forall in IH.
    destruct (collect_keys_ok (map fst pairs)) as (sorted_keys & -> & _).
    { rewrite forallb_forall. intros k Hk. apply in_map_iff in Hk as (p & <- & Hp).
      specialize (Q p Hp). apply andb_true_iff in Q. apply Q. }
    cbn [bind]. apply succeeds_for_each. intros key_pair _.
    apply succeeds_seq; [apply succeeds_serialize_string|].
    apply succeeds_rb_hash_aref. intros entry Hentry.
    apply in_map_iff in Hentry as (p & <- & Hp). cbn [snd].
    apply (IH p Hp). specialize (Q p Hp). apply andb_true_iff in Q. apply Q.
  - apply andb_true_iff in Q as [Qs Qn].
    apply succeeds_seq; [apply succeeds_push_back|].
    apply succeeds_seq; intros bytes; unfold NUM2ULL.
    + unfold in_unsigned_long_long in Qs. rewrite Qs. cbn [bind].
      apply succeeds_encode_varint.
    + unfold in_unsigned_long_long in Qn. rewrite Qn. cbn [bind].
      apply succeeds_encode_varint.
  - apply succeeds_seq; [apply succeeds_push_back|]. intros bytes.
    destruct (rb_to_s (RObject class_name object_id)) as [obj_str| |]; try discriminate.
    cbn [bind].
    apply succeeds_seq; [apply succeeds_encode_varint|].
    apply succeeds_for_each. intros c _. apply succeeds_push_back.
Qed.
End Totality.

(** C1. Every seed [to_seed_int] returns lies in [0 .. 2^31 - 1], and it
    returns one for every value on which no call into the Ruby runtime
    raises. *)
Theorem to_seed_int_in_31_bits (rb_to_s : VALUE -> outcome rstring) (v : VALUE) :
  (forall s, to_seed_int rb_to_s v = Ok s -> 0 <= s <= 2 ^ 31 - 1) /\
  (host_quiet rb_to_s v = true ->
   exists s, to_seed_int rb_to_s v = Ok s /\ 0 <= s <= 2 ^ 31 - 1).
Proof.
  split.
  - intros s. apply to_seed_int_range.
  - intros Q. destruct (host_quiet_succeeds rb_to_s v Q []) as [out E].
    assert (Es : exists s, to_seed_int rb_to_s v = Ok s).
    { unfold to_seed_int. rewrite E. cbn [bind]. eexists. reflexivity. }
    destruct Es as [s Es]. exists s. split; [exact Es|].
    apply (to_seed_int_range rb_to_s v s Es).
Qed.

(** ** Key equality *)

Lemma rstring_eqb_eq (a b : rstring) : rstring_eqb a b = true <-> a = b.
Proof.
  unfold rstring_eqb. destruct (list_eq_dec byte_eq_dec a b); split; congruence.
Qed.

Lemma VALUE_eqb_eq (a b : VALUE) : VALUE_eqb a b = true <-> a = b.
Proof.
  revert b.
  induction a as [| | |n|bits|s|name|elems IH|pairs IH|to_i nsec|class_name object_id]
    using VALUE_nested_ind;
    intros [| | |n'|bits'|s'|name'|elems'|pairs'|to_i' nsec'|class_name' object_id'];
    cbn [VALUE_eqb]; try (split; [discriminate | congruence]);
    try (split; reflexivity).
  - rewrite Z.eqb_eq. split; congruence.
  - rewrite N.eqb_eq. split; congruence.
  - rewrite rstring_eqb_eq. split; congruence.
  - rewrite rstring_eqb_eq. split; congruence.
  - enough (H : forall ys,
      (fix all2 (xs ys : list VALUE) {struct xs} : bool :=
         match xs, ys with
         | [], [] => true
         | x :: xs', y :: ys' => VALUE_eqb x y && all2 xs' ys'
         | _, _ => false
         end) elems ys = true <-> elems = ys).
    { rewrite H. split; congruence. }
    induction IH as [|x rest Hx _ IHrest]; intros [|y ys].
    + split; reflexivity.
    + split; discriminate.
    + split; discriminate.
    + rewrite andb_true_iff, Hx, IHrest. split; [intros [-> ->]; reflexivity | intros [= -> ->]; auto].
  - enough (H : forall qs,
      (fix all2 (ps qs : list (VALUE * VALUE)) {struct ps} : bool :=
         match ps, qs with
         | [], [] => true
         | (k, v) :: ps', (k', v') :: qs' =>
             VALUE_eqb k k' && VALUE_eqb v v' && all2 ps' qs'
         | _, _ => false
         end) pairs qs = true <-> pairs = qs).
    { rewrite H. split; congruence. }
    induction IH as [|[k v] rest [Hk Hv] _ IHrest]; intros [|[k' v'] qs].
    + split; reflexivity.
    + split; discriminate.
    + split; discriminate.
    + cbn [fst snd] in Hk, Hv.
      rewrite !andb_true_iff, Hk, Hv, IHrest.
      split; [intros [[-> ->] ->]; reflexivity | intros [= -> -> ->]; auto].
  - rewrite andb_true_iff, !Z.eqb_eq. split; [intros [-> ->]; reflexivity | intros [= -> ->]; auto].
  - rewrite andb_true_iff, rstring_eqb_eq, N.eqb_eq.
    split; [intros [-> ->]; reflexivity | intros [= -> ->]; auto].
Qed.

(** ** The order on [std::string] *)

Lemma to_N_inj (x y : byte) : Byte.to_N x = Byte.to_N y -> x = y.
Proof.
  intros E. pose proof (Byte.of_to_N x) as Hx. rewrite E, Byte.of_to_N in Hx.
  congruence.
Qed.

Lemma string_lt_irrefl (a : rstring) : string_lt a a = false.
Proof.
  induction a as [|x a IH]; cbn [string_lt]; [reflexivity|].
  rewrite N.ltb_irrefl. exact IH.
Qed.

Lemma string_lt_trans (a b c : rstring) :
  string_lt a b = true -> string_lt b c = true -> string_lt a c = true.
Proof.
  revert b c. induction a as [|x a IH]; intros [|y b] [|z c]; cbn [string_lt];
    try discriminate; try reflexivity.
  destruct (N.ltb_spec (Byte.to_N x) (Byte.to_N y)) as [Hxy|Hxy].
  - intros _.
    destruct (N.ltb_spec (Byte.to_N y) (Byte.to_N z)) as [Hyz|Hyz].
    + intros _. destruct (N.ltb_spec (Byte.to_N x) (Byte.to_N z)); [reflexivity | lia].
    + destruct (N.ltb_spec (Byte.to_N z) (Byte.to_N y)) as [Hzy|Hzy]; [discriminate|].
      intros _. destruct (N.ltb_spec (Byte.to_N x) (Byte.to_N z)); [reflexivity | lia].
  - destruct (N.ltb_spec (Byte.to_N y) (Byte.to_N x)) as [Hyx|Hyx]; [discriminate|].
    intros Hab.
    destruct (N.ltb_spec (Byte.to_N y) (Byte.to_N z)) as [Hyz|Hyz].
    + intros _. destruct (N.ltb_spec (Byte.to_N x) (Byte.to_N z)); [reflexivity | lia].
    + destruct (N.ltb_spec (Byte.to_N z) (Byte.to_N y)) as [Hzy|Hzy]; [discriminate|].
      intros Hbc.
      destruct (N.ltb_spec (Byte.to_N x) (Byte.to_N z)); [reflexivity|].
      destruct (N.ltb_spec (Byte.to_N z) (Byte.to_N x)); [lia|].
      exact (IH b c Hab Hbc).
Qed.

Lemma string_lt_total (a b : rstring) :
  a <> b -> string_lt a b = true \/ string_lt b a = true.
Proof.
  revert b. induction a as [|x a IH]; intros [|y b] Hne; cbn [string_lt].
  - contradiction.
  - left. reflexivity.
  - right. reflexivity.
  - destruct (N.ltb_spec (Byte.to_N x) (Byte.to_N y)) as [Hxy|Hxy]; [left; reflexivity|].
    destruct (N.ltb_spec (Byte.to_N y) (Byte.to_N x)) as [Hyx|Hyx]; [right; reflexivity|].
    assert (x = y) as -> by (apply to_N_inj; lia).
    apply IH. congruence.
Qed.

(** ** Sorting by a string key *)

Section SortByKey.
Context {A : Type} (key : A -> rstring).

Lemma linear_insert_sorted (val : A) (sorted : list A) :
  StronglySorted (key_lt key) sorted ->
  ~ In (key val) (map key sorted) ->
  StronglySorted (key_lt key) (linear_insert (by_key key) val sorted).
Proof.
  induction sorted as [|x rest IH]; cbn [linear_insert map]; intros Hs Hn.
  - constructor; constructor.
  - unfold by_key at 1. destruct (string_lt (key val) (key x)) eqn:E.
    + constructor; [exact Hs|]. constructor; [exact E|].
      apply StronglySorted_inv in Hs as [_ Hx].
      rewrite Forall_forall in *. intros y Hy.
      eapply string_lt_trans; [exact E | apply Hx, Hy].
    + apply StronglySorted_inv in Hs as [Hrest Hx].
      assert (Hxv : (key_lt key) x val).
      { destruct (string_lt_total (key val) (key x)) as [H|H].
        - intros Heq. apply Hn. left. symmetry. exact Heq.
        - congruence.
        - exact H. }
      constructor.
      * apply IH; [exact Hrest|]. intros Hin. apply Hn. right. exact Hin.
      * rewrite Forall_forall in *. intros y Hy.
        apply (Permutation_in _ (linear_insert_perm (by_key key) val rest)) in Hy.
        destruct Hy as [<-|Hy]; [exact Hxv | apply Hx, Hy].
Qed.

Lemma fold_insert_sorted (l acc : list A) :
  StronglySorted (key_lt key) acc ->
  NoDup (map key (l ++ acc)) ->
  StronglySorted (key_lt key)
    (fold_left (fun sorted val => linear_insert (by_key key) val sorted) l acc).
Proof.
  revert acc. induction l as [|x rest IH]; intros acc Hs Hn; cbn [fold_left].
  - exact Hs.
  - cbn [app map] in Hn. apply NoDup_cons_iff in Hn as [Hx Hn].
    apply IH.
    + apply linear_insert_sorted; [exact Hs|].
      intros Hin. apply Hx. rewrite map_app. apply in_or_app. right. exact Hin.
    + eapply Permutation_NoDup; [|apply NoDup_cons; [exact Hx | exact Hn]].
      rewrite !map_app. cbn [map].
      eapply perm_trans; [apply Permutation_middle|].
      apply Permutation_app_head.
      change (key x :: map key acc) with (map key (x :: acc)).
      apply Permutation_map. symmetry. apply linear_insert_perm.
Qed.

Lemma std_sort_sorted (l : list A) :
  NoDup (map key l) -> StronglySorted (key_lt key) (std_sort (by_key key) l).
Proof.
  intros Hn. apply fold_insert_sorted; [constructor|].
  rewrite app_nil_r. exact Hn.
Qed.

Lemma key_lt_irrefl (a : A) : ~ (key_lt key) a a.
Proof. unfold key_lt. rewrite string_lt_irrefl. discriminate. Qed.

Lemma sorted_perm_unique (l1 l2 : list A) :
  StronglySorted (key_lt key) l1 -> StronglySorted (key_lt key) l2 ->
  Permutation l1 l2 -> l1 = l2.
Proof.
  revert l2. induction l1 as [|h1 t1 IH]; intros l2 S1 S2 P.
  - apply Permutation_nil in P. symmetry. exact P.
  - destruct l2 as [|h2 t2].
    + symmetry in P. apply Permutation_nil in P. discriminate.
    + apply StronglySorted_inv in S1 as [S1 F1].
      apply StronglySorted_inv in S2 as [S2 F2].
      rewrite Forall_forall in F1, F2.
      assert (Eh : h1 = h2).
      { assert (I1 : In h1 (h2 :: t2))
          by (apply (Permutation_in _ P); left; reflexivity).
        assert (I2 : In h2 (h1 :: t1))
          by (apply (Permutation_in _ (Permutation_sym P)); left; reflexivity).
        destruct I1 as [E|I1]; [symmetry; exact E|].
        destruct I2 as [E|I2]; [exact E|].
        exfalso. apply (key_lt_irrefl h1).
        eapply string_lt_trans; [apply F1, I2 | apply F2, I1]. }
      subst h2. f_equal. apply IH; [exact S1 | exact S2|].
      eapply Permutation_cons_inv. exact P.
Qed.

(** Sorting erases the order of a range whose keys are pairwise distinct. *)
Lemma std_sort_perm_eq (l1 l2 : list A) :
  NoDup (map key l1) -> Permutation l1 l2 ->
  std_sort (by_key key) l1 = std_sort (by_key key) l2.
Proof.
  intros Hn P. apply sorted_perm_unique.
  - apply std_sort_sorted. exact Hn.
  - apply std_sort_sorted. eapply Permutation_NoDup; [|exact Hn].
    apply Permutation_map. exact P.
  - eapply perm_trans; [apply std_sort_perm|].
    eapply perm_trans; [exact P|]. symmetry. apply std_sort_perm.
Qed.
End SortByKey.

(** Sorting commutes with a map that keeps the comparison. *)
Lemma linear_insert_map {A B : Type} (f : A -> B)
    (compA : A -> A -> bool) (compB : B -> B -> bool) (val : A) (sorted : list A) :
  (forall a b, compB (f a) (f b) = compA a b) ->
  linear_insert compB (f val) (map f sorted) = map f (linear_insert compA val sorted).
Proof.
  intros H. induction sorted as [|x rest IH]; cbn [linear_insert map].
  - reflexivity.
  - rewrite H. destruct (compA val x); cbn [map]; [reflexivity|].
    rewrite IH. reflexivity.
Qed.

Lemma std_sort_map {A B : Type} (f : A -> B)
    (compA : A -> A -> bool) (compB : B -> B -> bool) (l : list A) :
  (forall a b, compB (f a) (f b) = compA a b) ->
  std_sort compB (map f l) = map f (std_sort compA l).
Proof.
  intros H. unfold std_sort.
  change (@nil B) with (map f (@nil A)). generalize (@nil A) as acc.
  induction l as [|x rest IH]; intros acc; cbn [fold_left map].
  - reflexivity.
  - rewrite (linear_insert_map f compA compB) by exact H. apply IH.
Qed.

Lemma for_each_map {A B : Type} (f : A -> B) (body : B -> writer) (l : list A) :
  for_each body (map f l) = for_each (fun x => body (f x)) l.
Proof.
  induction l as [|x rest IH]; cbn [for_each map]; [reflexivity|].
  rewrite IH. reflexivity.
Qed.

Lemma for_each_ext_in {A : Type} (body1 body2 : A -> writer) (l : list A) :
  (forall x, In x l -> forall bytes, body1 x bytes = body2 x bytes) ->
  forall bytes, for_each body1 l bytes = for_each body2 l bytes.
Proof.
  induction l as [|x rest IH]; intros H bytes; cbn [for_each]; [reflexivity|].
  unfold seq. rewrite (H x (or_introl eq_refl)).
  destruct (body2 x bytes) as [mid| |]; cbn [bind]; try reflexivity.
  apply IH. intros y Hy. apply H. right. exact Hy.
Qed.

(** ** The [T_HASH] case *)

Section Hash.
Variable rb_to_s : VALUE -> outcome rstring.

Lemma collect_keys_pairs (pairs : list (VALUE * VALUE)) :
  collect_keys rb_to_s (map fst pairs) =
  outcome_map (map (fun entry => (fst entry, fst (snd entry))))
    (collect_pairs rb_to_s pairs).
Proof.
  unfold outcome_map.
  induction pairs as [|p rest IH]; cbn [map collect_keys collect_pairs bind].
  - reflexivity.
  - destruct (rb_to_s (fst p)) as [s| |]; cbn [bind]; try reflexivity.
    rewrite IH.
    destruct (collect_pairs rb_to_s rest) as [l| |]; cbn [bind]; reflexivity.
Qed.

Lemma collect_pairs_Ok (pairs : list (VALUE * VALUE))
    (rendered : list (rstring * (VALUE * VALUE))) :
  collect_pairs rb_to_s pairs = Ok rendered ->
  rendered = map (fun p => (rendering rb_to_s (fst p), p)) pairs.
Proof.
  revert rendered. induction pairs as [|p rest IH]; intros rendered;
    cbn [collect_pairs map].
  - intros E. apply Ok_inj in E. symmetry. exact E.
  - unfold rendering at 1.
    destruct (rb_to_s (fst p)) as [s| |]; cbn [bind]; try discriminate.
    destruct (collect_pairs rb_to_s rest) as [l| |]; cbn [bind]; try discriminate.
    intros E. apply Ok_inj in E. subst rendered. rewrite (IH l eq_refl). reflexivity.
Qed.

Lemma collect_pairs_perm (ps1 ps2 : list (VALUE * VALUE))
    (l1 : list (rstring * (VALUE * VALUE))) :
  Permutation ps1 ps2 ->
  collect_pairs rb_to_s ps1 = Ok l1 ->
  collect_pairs rb_to_s ps2 = Ok (map (fun p => (rendering rb_to_s (fst p), p)) ps2).
Proof.
  intros P E.
  assert (Hall : Forall (fun p => is_ok (rb_to_s (fst p)) = true) ps1).
  { clear P. revert l1 E. induction ps1 as [|p rest IH]; intros l1; cbn [collect_pairs].
    - constructor.
    - destruct (rb_to_s (fst p)) as [s| |] eqn:Es; cbn [bind]; try discriminate.
      destruct (collect_pairs rb_to_s rest) as [l| |]; cbn [bind]; try discriminate.
      intros _. constructor; [rewrite Es; reflexivity | apply (IH l eq_refl)]. }
  apply (Permutation_Forall P) in Hall. clear P E.
  induction Hall as [|p rest Hp _ IH]; cbn [collect_pairs map].
  - reflexivity.
  - unfold rendering at 1. destruct (rb_to_s (fst p)) as [s| |]; try discriminate.
    cbn [bind]. rewrite IH. reflexivity.
Qed.

Lemma rb_hash_aref_paired (pairs : list (VALUE * VALUE)) (k v : VALUE) :
  NoDup (map fst pairs) -> In (k, v) pairs ->
  rb_hash_aref (map (fun p => (fst p, canonical_serialize rb_to_s (snd p))) pairs) k =
  canonical_serialize rb_to_s v.
Proof.
  unfold rb_hash_aref.
  induction pairs as [|[k' v'] rest IH]; cbn [map find fst snd]; intros Hn Hin.
  - contradiction.
  - apply NoDup_cons_iff in Hn as [Hk' Hn].
    destruct (VALUE_eqb k k') eqn:E.
    + apply VALUE_eqb_eq in E. subst k'. destruct Hin as [Hin|Hin].
      * injection Hin as ->. reflexivity.
      * exfalso. apply Hk'. apply in_map_iff. exists (k, v). split; [reflexivity | exact Hin].
    + destruct Hin as [Hin|Hin].
      * injection Hin as -> ->.
        assert (VALUE_eqb k k = true) by (apply VALUE_eqb_eq; reflexivity). congruence.
      * apply IH; assumption.
Qed.

(** With pairwise distinct keys, fetching by key gets the paired value. *)
Lemma hash_serialized_paired (pairs : list (VALUE * VALUE)) (bytes : list N) :
  NoDup (map fst pairs) ->
  canonical_serialize rb_to_s (RHash pairs) bytes =
  serialize_hash_paired rb_to_s pairs bytes.
Proof.
  intros Hn. cbn [canonical_serialize]. unfold serialize_hash_paired, seq, push_back.
  cbn [bind]. rewrite length_map. unfold encode_varint. cbn [bind].
  rewrite collect_keys_pairs. unfold outcome_map.
  destruct (collect_pairs rb_to_s pairs) as [rendered| |] eqn:E; cbn [bind]; try reflexivity.
  rewrite (std_sort_map (fun entry => (fst entry, fst (snd entry))) pair_lt key_pair_lt)
    by reflexivity.
  rewrite for_each_map. apply for_each_ext_in.
  intros [r [k v]] Hin buf. cbn [fst snd]. unfold seq.
  destruct (serialize_string tag_s r buf) as [mid| |]; cbn [bind]; try reflexivity.
  rewrite (rb_hash_aref_paired pairs k v); [reflexivity | exact Hn |].
  apply (Permutation_in _ (std_sort_perm pair_lt rendered)) in Hin.
  rewrite (collect_pairs_Ok _ _ E) in Hin.
  apply in_map_iff in Hin as (p & Ep & Hp). injection Ep as _ ->. exact Hp.
Qed.

Lemma renderings_Ok (pairs : list (VALUE * VALUE)) (rs : list rstring) :
  renderings rb_to_s (map fst pairs) = Ok rs ->
  collect_pairs rb_to_s pairs = Ok (map (fun p => (rendering rb_to_s (fst p), p)) pairs) /\
  rs = map (rendering rb_to_s) (map fst pairs).
Proof.
  unfold renderings. rewrite collect_keys_pairs. unfold outcome_map.
  destruct (collect_pairs rb_to_s pairs) as [l| |] eqn:E; cbn [bind]; try discriminate.
  intros H. apply Ok_inj in H. rewrite (collect_pairs_Ok _ _ E) in *.
  split; [reflexivity|]. subst rs. rewrite !map_map. reflexivity.
Qed.

Lemma hash_paired_perm (ps1 ps2 : list (VALUE * VALUE)) (rs : list rstring)
    (bytes : list N) :
  Permutation ps1 ps2 ->
  renderings rb_to_s (map fst ps1) = Ok rs -> NoDup rs ->
  serialize_hash_paired rb_to_s ps1 bytes = serialize_hash_paired rb_to_s ps2 bytes.
Proof.
  intros P Er Hn. apply renderings_Ok in Er as [E1 ->].
  pose proof (collect_pairs_perm ps1 ps2 _ P E1) as E2.
  unfold serialize_hash_paired, seq, push_back, encode_varint. cbn [bind].
  rewrite (Permutation_length P), E1, E2. cbn [bind].
  change pair_lt with (by_key (@fst rstring (VALUE * VALUE))).
  rewrite (std_sort_perm_eq fst
             (map (fun p => (rendering rb_to_s (fst p), p)) ps1)
             (map (fun p => (rendering rb_to_s (fst p), p)) ps2)).
  - reflexivity.
  - rewrite map_map. cbn [fst]. rewrite map_map in Hn. exact Hn.
  - apply Permutation_map. exact P.
Qed.


Lemma serialize_string_bytes (tag : N) (s : rstring) (bytes : list N) :
  serialize_string tag s bytes =
  Ok (bytes ++ tag :: varint (N.of_nat (List.length s)) ++ map uint8_of_char s).
Proof.
  unfold serialize_string, seq, push_back, encode_varint. cbn [bind].
  rewrite encode_varint_loop_app.
  generalize (varint (N.of_nat (List.length s))) as v. intros v.
  replace (bytes ++ tag :: v ++ map uint8_of_char s)
    with (((bytes ++ [tag]) ++ v) ++ map uint8_of_char s)
    by (rewrite <- !app_assoc; reflexivity).
  generalize ((bytes ++ [tag]) ++ v) as acc.
  induction s as [|c rest IH]; intros acc; cbn [for_each map].
  - unfold skip. rewrite app_nil_r. reflexivity.
  - unfold seq, push_back. cbn [bind]. rewrite IH, <- app_assoc. reflexivity.
Qed.
End Hash.

Lemma hash_serialized_by_rendering (rb_to_s : VALUE -> outcome rstring)
    (pairs : list (VALUE * VALUE)) (rs : list rstring) (bytes : list N) :
  NoDup (map fst pairs) ->
  renderings rb_to_s (map fst pairs) = Ok rs ->
  canonical_serialize rb_to_s (RHash pairs) bytes =
  serialize_hash_by_rendering rb_to_s pairs bytes.
Proof.
  intros Hn Er. rewrite hash_serialized_paired by exact Hn.
  apply renderings_Ok in Er as [E _].
  unfold serialize_hash_paired, serialize_hash_by_rendering, seq, push_back, encode_varint.
  cbn [bind]. rewrite E. cbn [bind].
  rewrite (std_sort_map (fun p => (rendering rb_to_s (fst p), p))
             (by_key (fun p => rendering rb_to_s (fst p))) pair_lt)
    by reflexivity.
  rewrite for_each_map. reflexivity.
Qed.

Lemma single_pair_hash (rb_to_s : VALUE -> outcome rstring)
    (k v : VALUE) (r : rstring) (bytes : list N) :
  rb_to_s k = Ok r ->
  canonical_serialize rb_to_s (RHash [(k, v)]) bytes =
  canonical_serialize rb_to_s v
    (bytes ++ [tag_h; 1] ++
     tag_s :: varint (N.of_nat (List.length r)) ++ map uint8_of_char r).
Proof.
  intros Er. cbn [canonical_serialize map fst snd List.length collect_keys].
  unfold seq at 1 2. unfold push_back at 1. cbn [bind].
  unfold encode_varint at 1. cbn [bind].
  rewrite encode_varint_loop_app. change (varint (N.of_nat 1)) with [1].
  rewrite Er. cbn [bind]. unfold std_sort. cbn [fold_left linear_insert for_each fst snd].
  unfold seq. rewrite serialize_string_bytes. cbn [bind].
  unfold rb_hash_aref. cbn [find fst snd].
  replace (VALUE_eqb k k) with true by (symmetry; apply VALUE_eqb_eq; reflexivity).
  cbn [snd].
  rewrite <- !app_assoc. cbn [app].
  destruct (canonical_serialize rb_to_s v _) as [out| |]; reflexivity.
Qed.




Lemma linear_insert_sorted_le {A : Type} (key : A -> rstring) (val : A) (sorted : list A) :
  StronglySorted (key_le key) sorted ->
  StronglySorted (key_le key) (linear_insert (by_key key) val sorted).
Proof.
  induction sorted as [|x rest IH]; cbn [linear_insert]; intros Hs.
  - constructor; constructor.
  - unfold by_key at 1. destruct (string_lt (key val) (key x)) eqn:E.
    + constructor; [exact Hs|].
      assert (Hvx : key_le key val x).
      { unfold key_le. destruct (string_lt (key x) (key val)) eqn:E'; [|reflexivity].
        pose proof (string_lt_trans _ _ _ E E') as C. rewrite string_lt_irrefl in C.
        discriminate C. }
      constructor; [exact Hvx|].
      apply StronglySorted_inv in Hs as [_ Hx]. rewrite Forall_forall in *.
      intros y Hy. specialize (Hx y Hy). unfold key_le in *.
      destruct (string_lt (key y) (key val)) eqn:E'; [|reflexivity].
      pose proof (string_lt_trans _ _ _ E' E) as C. congruence.
    + apply StronglySorted_inv in Hs as [Hrest Hx].
      constructor; [apply IH; exact Hrest|].
      rewrite Forall_forall in *. intros y Hy.
      apply (Permutation_in _ (linear_insert_perm (by_key key) val rest)) in Hy.
      destruct Hy as [<-|Hy]; [exact E | apply Hx, Hy].
Qed.

Lemma std_sort_sorted_le {A : Type} (key : A -> rstring) (l : list A) :
  StronglySorted (key_le key) (std_sort (by_key key) l).
Proof.
  unfold std_sort.
  assert (H : StronglySorted (key_le key) (@nil A)) by constructor.
  revert H. generalize (@nil A) as acc.
  induction l as [|x rest IH]; intros acc H; cbn [fold_left].
  - exact H.
  - apply IH. apply linear_insert_sorted_le. exact H.
Qed.

(** C3. In a Hash with pairwise distinct keys every pair is written once, in
    some non-decreasing order of the keys' texts, as the encoding of the
    String that holds the text of the key, whatever the key is, followed by
    the encoding of the value; the value fetched by the original key is the
    one paired with it.  So two one-pair Hashes whose keys have the same
    text encode alike, in particular with the keys [1] and ["1"]. *)
Theorem hash_key_is_its_rendering (rb_to_s : VALUE -> outcome rstring) :
  (forall pairs rs,
     NoDup (map fst pairs) ->
     renderings rb_to_s (map fst pairs) = Ok rs ->
     exists sorted,
       Permutation sorted pairs /\
       StronglySorted (key_le (fun p => rendering rb_to_s (fst p))) sorted /\
       forall bytes,
         canonical_serialize rb_to_s (RHash pairs) bytes =
         (push_back tag_h ;;
          encode_varint (N.of_nat (List.length pairs)) ;;
          for_each
            (fun p =>
               canonical_serialize rb_to_s (RString (rendering rb_to_s (fst p))) ;;
               canonical_serialize rb_to_s (snd p))
            sorted) bytes) /\
  (forall pairs k v,
     NoDup (map fst pairs) -> In (k, v) pairs ->
     rb_hash_aref
       (map (fun p => (fst p, canonical_serialize rb_to_s (snd p))) pairs) k =
     canonical_serialize rb_to_s v) /\
  (forall text bytes,
     canonical_serialize rb_to_s (RString text) bytes =
     Ok (bytes ++ tag_s :: varint (N.of_nat (List.length text)) ++
                  map uint8_of_char text)) /\
  (forall k v r bytes,
     rb_to_s k = Ok r ->
     canonical_serialize rb_to_s (RHash [(k, v)]) bytes =
     canonical_serialize rb_to_s v
       (bytes ++ [tag_h; 1] ++
        tag_s :: varint (N.of_nat (List.length r)) ++ map uint8_of_char r)) /\
  (forall k1 k2 v r bytes,
     rb_to_s k1 = Ok r -> rb_to_s k2 = Ok r ->
     canonical_serialize rb_to_s (RHash [(k1, v)]) bytes =
     canonical_serialize rb_to_s (RHash [(k2, v)]) bytes) /\
  (forall other v bytes,
     canonical_serialize (core_to_s other) (RHash [(RInteger 1, v)]) bytes =
     canonical_serialize (core_to_s other) (RHash [(RString text_1, v)]) bytes).
Proof.
  repeat apply conj.
  - intros pairs rs Hn Er.
    exists (std_sort (by_key (fun p => rendering rb_to_s (fst p))) pairs).
    split; [apply std_sort_perm|]. split; [apply std_sort_sorted_le|].
    intros bytes. apply (hash_serialized_by_rendering rb_to_s pairs rs bytes Hn Er).
  - intros pairs k v Hn Hin. apply rb_hash_aref_paired; assumption.
  - intros text bytes. apply serialize_string_bytes.
  - intros k v r bytes Er. apply single_pair_hash. exact Er.
  - intros k1 k2 v r bytes E1 E2.
    rewrite (single_pair_hash rb_to_s k1 v r), (single_pair_hash rb_to_s k2 v r) by assumption.
    reflexivity.
  - intros other v bytes.
    rewrite (single_pair_hash (core_to_s other) (RInteger 1) v text_1),
            (single_pair_hash (core_to_s other) (RString text_1) v text_1)
      by reflexivity.
    reflexivity.
Qed.

Lemma hash_key_is_its_rendering_witness :
  canonical_serialize (core_to_s plain_to_s) (RHash [(RInteger 1, RTrue)]) [] =
  canonical_serialize (core_to_s plain_to_s) (RHash [(RSymbol text_1, RTrue)]) [].
Proof.
  apply (proj1 (proj2 (proj2 (proj2 (proj2
           (hash_key_is_its_rendering (core_to_s plain_to_s))))))
           (RInteger 1) (RSymbol text_1) RTrue text_1 []); reflexivity.
Defined.

(** C5, as amended.  When a call into the Ruby runtime raises during the
    encoding, in particular [to_s] of an object written by class name and
    text, no seed is produced and [seed_to_seed_int] leaves with that very
    exception; only a C++ exception is turned into a RuntimeError, whose
    message is [Error in seed calculation: ] followed by its own. *)
Theorem host_exception_passes_through (rb_to_s : VALUE -> outcome rstring) (v : VALUE) :
  (forall e,
     canonical_serialize rb_to_s v [] = RubyRaise e ->
     to_seed_int rb_to_s v = RubyRaise e /\ seed_to_seed_int rb_to_s v = RubyRaise e) /\
  (forall class_name object_id e,
     v = RObject class_name object_id ->
     rb_to_s v = RubyRaise e ->
     seed_to_seed_int rb_to_s v = RubyRaise e) /\
  (forall what,
     to_seed_int rb_to_s v = CxxThrow what ->
     seed_to_seed_int rb_to_s v =
     RubyRaise (rb_eRuntimeError (String.append "Error in seed calculation: " what))).
Proof.
  split; [|split].
  - intros e E. unfold seed_to_seed_int, to_seed_int. rewrite E. cbn [bind]. split; reflexivity.
  - intros class_name object_id e -> E.
    unfold seed_to_seed_int, to_seed_int. cbn [canonical_serialize].
    unfold seq, push_back. cbn [bind]. rewrite E. reflexivity.
  - intros what E. unfold seed_to_seed_int. rewrite E. reflexivity.
Qed.

Lemma host_exception_passes_through_witness :
  seed_to_seed_int (core_to_s raising_to_s) object_without_to_s =
  RubyRaise (RbException "NoMethodError" "undefined method 'to_s'").
Proof.
  apply (proj1 (host_exception_passes_through (core_to_s raising_to_s) object_without_to_s)).
  reflexivity.
Defined.

(** C5 as stated fails: two objects whose [to_s] raises leave
    [seed_to_seed_int] with two exceptions of different classes, the ones
    [to_s] raised. *)
Lemma host_exceptions_are_not_one_kind :
  seed_to_seed_int (core_to_s raising_to_s) object_without_to_s =
    RubyRaise (RbException "NoMethodError" "undefined method 'to_s'") /\
  seed_to_seed_int (core_to_s raising_to_s) object_with_failing_to_s =
    RubyRaise (RbException "ArgumentError" "no rendering") /\
  ~ (exists kind : string, forall v e,
       seed_to_seed_int (core_to_s raising_to_s) v = RubyRaise e -> exc_class e = kind).
Proof.
  split; [reflexivity|]. split; [reflexivity|].
  intros [kind H].
  pose proof (H object_without_to_s _ eq_refl) as H0.
  pose proof (H object_with_failing_to_s _ eq_refl) as H1.
  cbn [exc_class] in H0, H1. rewrite <- H1 in H0. discriminate H0.
Qed.

(** ** Instances *)

Lemma to_seed_int_in_31_bits_witness :
  exists s, to_seed_int (core_to_s plain_to_s) quiet_sample = Ok s /\ 0 <= s <= 2 ^ 31 - 1.
Proof.
  apply (proj2 (to_seed_int_in_31_bits (core_to_s plain_to_s) quiet_sample)).
  reflexivity.
Defined.

Lemma integer_encoding_witness :
  canonical_serialize plain_to_s (RInteger (-3)) [] = Ok (tag_i :: varint (zigzag_spec (-3))) /\
  exists e, canonical_serialize plain_to_s (RInteger (2 ^ 64)) [] = RubyRaise e /\
            exc_class e = "RangeError"%string.
Proof.
  split.
  - apply (proj1 (integer_encoding plain_to_s (-3))). lia.
  - apply (proj2 (integer_encoding plain_to_s (2 ^ 64))). lia.
Defined.

(** C4 as stated fails: the Integer [2^64] is not encoded. *)
Lemma big_integer_raises :
  canonical_serialize plain_to_s (RInteger (2 ^ 64)) [] =
    RubyRaise (rb_eRangeError "bignum too big to convert into 'long long'") /\
  ~ (exists out, canonical_serialize plain_to_s (RInteger (2 ^ 64)) [] = Ok out).
Proof.
  split; [reflexivity|]. intros [out E]. discriminate E.
Qed.

Lemma float_encoding_witness :
  canonical_serialize plain_to_s (RFloat positive_zero_bits) [] <>
  canonical_serialize plain_to_s (RFloat negative_zero_bits) [].
Proof.
  apply (proj1 (proj2 (float_encoding plain_to_s)) positive_zero_bits negative_zero_bits).
  - reflexivity.
  - reflexivity.
  - discriminate.
Defined.

Lemma time_encoding_witness :
  canonical_serialize plain_to_s (RTime (-1) 5) [] =
    Ok (tag_T :: varint (Z.to_N ((-1) mod 2 ^ 64)) ++ varint (Z.to_N 5)) /\
  exists e, canonical_serialize plain_to_s (RTime (2 ^ 64) 0) [] = RubyRaise e /\
            exc_class e = "RangeError"%string.
Proof.
  split.
  - apply (proj1 (time_encoding plain_to_s (-1) 5)); lia.
  - apply (proj2 (time_encoding plain_to_s (2 ^ 64) 0)). lia.
Defined.

(** C9 as stated fails: a Time [2^64] seconds after the epoch is not
    encoded. *)
Lemma far_future_time_raises :
  canonical_serialize plain_to_s (RTime (2 ^ 64) 0) [] =
    RubyRaise (rb_eRangeError "bignum too big to convert into 'unsigned long long'") /\
  ~ (exists out, canonical_serialize plain_to_s (RTime (2 ^ 64) 0) [] = Ok out).
Proof.
  split; [reflexivity|]. intros [out E]. discriminate E.
Qed.

(** * Further properties of the source *)

(** ** ZigZag *)

Lemma zigzag_spec_bound (n : Z) :
  (- 2 ^ 63 <= n < 2 ^ 63)%Z -> zigzag_spec n < 2 ^ 64.
Proof.
  intros H. unfold zigzag_spec. destruct (0 <=? n)%Z eqn:Hs.
  - apply Z.leb_le in Hs. lia.
  - apply Z.leb_gt in Hs. lia.
Qed.

Lemma zigzag_spec_inj (a b : Z) :
  (- 2 ^ 63 <= a < 2 ^ 63)%Z -> (- 2 ^ 63 <= b < 2 ^ 63)%Z ->
  zigzag_spec a = zigzag_spec b -> a = b.
Proof.
  intros Ha Hb. unfold zigzag_spec.
  destruct (0 <=? a)%Z eqn:Sa, (0 <=? b)%Z eqn:Sb;
    try apply Z.leb_le in Sa; try apply Z.leb_le in Sb;
    try apply Z.leb_gt in Sa; try apply Z.leb_gt in Sb; lia.
Qed.

(** X1. On the 64-bit signed integers [zigzag] stays below [2^64], gives an
    even number exactly for the non-negative ones, and is injective. *)
Theorem zigzag_on_int64 (a b : Z) :
  (- 2 ^ 63 <= a < 2 ^ 63)%Z -> (- 2 ^ 63 <= b < 2 ^ 63)%Z ->
  zigzag a < 2 ^ 64 /\
  (N.even (zigzag a) = (0 <=? a)%Z) /\
  (zigzag a = zigzag b -> a = b).
Proof.
  intros Ha Hb. rewrite !zigzag_correct by assumption.
  split; [apply zigzag_spec_bound; exact Ha|]. split.
  - unfold zigzag_spec. destruct (0 <=? a)%Z eqn:Sa.
    + apply Z.leb_le in Sa. rewrite Z2N.inj_mul by lia.
      change (Z.to_N 2) with 2. rewrite N.even_mul. reflexivity.
    + apply Z.leb_gt in Sa.
      replace (Z.to_N (2 * Z.abs a - 1)) with (1 + 2 * Z.to_N (Z.abs a - 1)) by lia.
      rewrite N.even_add_mul_2. reflexivity.
  - apply zigzag_spec_inj; assumption.
Qed.

Lemma zigzag_on_int64_witness :
  zigzag (- 2 ^ 63) < 2 ^ 64 /\
  (N.even (zigzag (- 2 ^ 63)) = (0 <=? - 2 ^ 63)%Z) /\
  (zigzag (- 2 ^ 63) = zigzag (2 ^ 63 - 1) -> (- 2 ^ 63 = 2 ^ 63 - 1)%Z).
Proof. apply (zigzag_on_int64 (- 2 ^ 63) (2 ^ 63 - 1)); lia. Defined.

(** ** The buffer is only appended to *)

Lemma appends_only_push_back (byte : N) : appends_only (push_back byte).
Proof. intros bytes. reflexivity. Qed.

Lemma appends_only_skip : appends_only skip.
Proof. intros bytes. unfold skip, prepend, outcome_map. cbn [bind]. rewrite app_nil_r. reflexivity. Qed.

Lemma appends_only_encode_varint (num : N) : appends_only (encode_varint num).
Proof.
  intros bytes. unfold encode_varint, prepend, outcome_map. cbn [bind].
  rewrite (encode_varint_loop_app num bytes), (encode_varint_loop_app num []).
  reflexivity.
Qed.

Lemma appends_only_seq (f g : writer) :
  appends_only f -> appends_only g -> appends_only (f ;; g).
Proof.
  intros Hf Hg bytes. unfold seq. rewrite (Hf bytes). unfold prepend, outcome_map.
  destruct (f []) as [o| |]; cbn [bind]; try reflexivity.
  rewrite (Hg (bytes ++ o)), (Hg o). unfold prepend, outcome_map.
  destruct (g []) as [o'| |]; cbn [bind]; try reflexivity.
  rewrite app_assoc. reflexivity.
Qed.

Lemma appends_only_for_each {A : Type} (body : A -> writer) (l : list A) :
  (forall x, In x l -> appends_only (body x)) -> appends_only (for_each body l).
Proof.
  induction l as [|x rest IH]; intros H; cbn [for_each].
  - apply appends_only_skip.
  - apply appends_only_seq; [apply H; left; reflexivity|].
    apply IH. intros y Hy. apply H. right. exact Hy.
Qed.

Lemma appends_only_host {A : Type} (m : outcome A) (k : A -> writer) :
  (forall a, appends_only (k a)) ->
  appends_only (fun bytes => bind m (fun a => k a bytes)).
Proof.
  intros H bytes. destruct m as [a| |]; cbn [bind]; [apply H | reflexivity | reflexivity].
Qed.

Lemma appends_only_serialize_string (tag : N) (s : rstring) :
  appends_only (serialize_string tag s).
Proof.
  unfold serialize_string.
  apply appends_only_seq; [apply appends_only_push_back|].
  apply appends_only_seq; [apply appends_only_encode_varint|].
  apply appends_only_for_each. intros c _. apply appends_only_push_back.
Qed.

Lemma appends_only_rb_hash_aref (table : list (VALUE * writer)) (key : VALUE) :
  (forall entry, In entry table -> appends_only (snd entry)) ->
  appends_only (rb_hash_aref table key).
Proof.
  intros H. unfold rb_hash_aref.
  destruct (find (fun entry => VALUE_eqb key (fst entry)) table) as [entry|] eqn:E.
  - apply H. apply find_some in E. apply E.
  - apply appends_only_push_back.
Qed.

Lemma canonical_serialize_tag_payload (rb_to_s : VALUE -> outcome rstring)
    (v : VALUE) (bytes : list N) :
  canonical_serialize rb_to_s v bytes =
  (push_back (type_tag v) ;; payload rb_to_s v) bytes.
Proof. destruct v; reflexivity. Qed.

Lemma appends_only_from_payload (rb_to_s : VALUE -> outcome rstring) (v : VALUE) :
  appends_only (payload rb_to_s v) ->
  appends_only (payload rb_to_s v) /\ appends_only (canonical_serialize rb_to_s v).
Proof.
  intros H. split; [exact H|]. intros bytes.
  rewrite (canonical_serialize_tag_payload rb_to_s v bytes),
          (canonical_serialize_tag_payload rb_to_s v []).
  apply (appends_only_seq _ _ (appends_only_push_back _) H).
Qed.

Lemma payload_and_serialize_append (rb_to_s : VALUE -> outcome rstring) (v : VALUE) :
  appends_only (payload rb_to_s v) /\ appends_only (canonical_serialize rb_to_s v).
Proof.
  induction v as [| | |n|bits|s|name|elems IH|pairs IH|to_i nsec|class_name object_id]
    using VALUE_nested_ind; apply appends_only_from_payload; cbn [payload].
  - apply appends_only_skip.
  - apply appends_only_skip.
  - apply appends_only_skip.
  - apply (appends_only_host (NUM2LL n) (fun num => encode_varint (zigzag num))).
    intros num. apply appends_only_encode_varint.
  - apply appends_only_for_each. intros i _. apply appends_only_push_back.
  - apply appends_only_seq; [apply appends_only_encode_varint|].
    apply appends_only_for_each. intros c _. apply appends_only_push_back.
  - apply appends_only_seq; [apply appends_only_encode_varint|].
    apply appends_only_for_each. intros c _. apply appends_only_push_back.
  - apply appends_only_seq; [apply appends_only_encode_varint|].
    apply appends_only_for_each. rewrite Forall_forall in IH.
    intros x Hx. apply (IH x Hx).
  - apply appends_only_seq; [apply appends_only_encode_varint|].
    apply (appends_only_host (collect_keys rb_to_s (map fst pairs))
             (fun sorted_keys =>
                for_each
                  (fun key_pair =>
                     serialize_string tag_s (fst key_pair) ;;
                     rb_hash_aref
                       (map (fun p => (fst p, canonical_serialize rb_to_s (snd p))) pairs)
                       (snd key_pair))
                  (std_sort key_pair_lt sorted_keys))).
    intros sorted_keys. apply appends_only_for_each. intros key_pair _.
    apply appends_only_seq; [apply appends_only_serialize_string|].
    apply appends_only_rb_hash_aref. intros entry Hentry.
    apply in_map_iff in Hentry as (p & <- & Hp). cbn [snd].
    rewrite Forall_forall in IH. apply (IH p Hp).
  - apply appends_only_seq.
    + apply (appends_only_host (NUM2ULL to_i) encode_varint).
      apply appends_only_encode_varint.
    + apply (appends_only_host (NUM2ULL nsec) encode_varint).
      apply appends_only_encode_varint.
  - apply (appends_only_host (rb_to_s (RObject class_name object_id))
             (fun obj_str =>
                encode_varint
                  (N.of_nat (List.length (class_name ++ [colon] ++ obj_str))) ;;
                for_each (fun c => push_back (uint8_of_char c))
                  (class_name ++ [colon] ++ obj_str))).
    intros obj_str.
    apply appends_only_seq; [apply appends_only_encode_varint|].
    apply appends_only_for_each. intros c _. apply appends_only_push_back.
Qed.

Lemma canonical_serialize_appends_only (rb_to_s : VALUE -> outcome rstring) (v : VALUE) :
  appends_only (canonical_serialize rb_to_s v).
Proof. apply payload_and_serialize_append. Qed.

Lemma payload_appends_only (rb_to_s : VALUE -> outcome rstring) (v : VALUE) :
  appends_only (payload rb_to_s v).
Proof. apply payload_and_serialize_append. Qed.

(** X2. [canonical_serialize] only appends: on any buffer it does what it
    does on the empty one, behind the bytes it found; whether it returns or
    raises, and what it raises, does not depend on the buffer. *)
Theorem buffer_prefix_kept (rb_to_s : VALUE -> outcome rstring) (v : VALUE)
    (bytes : list N) :
  canonical_serialize rb_to_s v bytes =
    prepend bytes (canonical_serialize rb_to_s v []) /\
  (forall out,
     canonical_serialize rb_to_s v bytes = Ok out ->
     exists enc, canonical_serialize rb_to_s v [] = Ok enc /\ out = bytes ++ enc) /\
  (forall e,
     canonical_serialize rb_to_s v bytes = RubyRaise e <->
     canonical_serialize rb_to_s v [] = RubyRaise e).
Proof.
  pose proof (canonical_serialize_appends_only rb_to_s v bytes) as H.
  split; [exact H|]. rewrite H. unfold prepend, outcome_map.
  destruct (canonical_serialize rb_to_s v []) as [enc|e'|what]; cbn [bind]; split.
  - intros out E. apply Ok_inj in E. exists enc. split; [reflexivity | symmetry; exact E].
  - intros e. split; discriminate.
  - intros out E. discriminate E.
  - intros e. split; intros E; exact E.
  - intros out E. discriminate E.
  - intros e. split; discriminate.
Qed.

Lemma buffer_prefix_kept_witness :
  exists enc, canonical_serialize plain_to_s (RArray [RNil]) [] = Ok enc /\
              [tag_t; tag_a; 1; tag_n] = [tag_t] ++ enc.
Proof.
  apply (proj1 (proj2 (buffer_prefix_kept plain_to_s (RArray [RNil]) [tag_t]))).
  reflexivity.
Defined.

(** ** The tag comes first *)

Lemma canonical_serialize_starts_with_tag (rb_to_s : VALUE -> outcome rstring)
    (v : VALUE) (out : list N) :
  canonical_serialize rb_to_s v [] = Ok out ->
  exists rest, out = type_tag v :: rest.
Proof.
  rewrite canonical_serialize_tag_payload. unfold seq, push_back. cbn [bind app].
  rewrite (payload_appends_only rb_to_s v [type_tag v]). unfold prepend, outcome_map.
  destruct (payload rb_to_s v []) as [rest| |]; cbn [bind]; try discriminate.
  intros E. apply Ok_inj in E. exists rest. symmetry. exact E.
Qed.

(** X3. An encoding starts with the tag of its value's type, so two values
    whose types have different tags never get the same encoding. *)
Theorem encoding_starts_with_type_tag (rb_to_s : VALUE -> outcome rstring)
    (v w : VALUE) (out_v out_w : list N) :
  canonical_serialize rb_to_s v [] = Ok out_v ->
  canonical_serialize rb_to_s w [] = Ok out_w ->
  (exists rest, out_v = type_tag v :: rest) /\
  (type_tag v <> type_tag w -> out_v <> out_w).
Proof.
  intros Ev Ew.
  destruct (canonical_serialize_starts_with_tag rb_to_s v out_v Ev) as [rv ->].
  destruct (canonical_serialize_starts_with_tag rb_to_s w out_w Ew) as [rw ->].
  split; [exists rv; reflexivity|].
  intros Hne E. apply Hne. injection E as E _. exact E.
Qed.

Lemma encoding_starts_with_type_tag_witness :
  (exists rest, [tag_s; 1; 97] = type_tag (RString text_a) :: rest) /\
  (type_tag (RString text_a) <> type_tag (RSymbol text_a) -> [tag_s; 1; 97] <> [tag_y; 1; 97]).
Proof.
  apply (encoding_starts_with_type_tag plain_to_s (RString text_a) (RSymbol text_a)
           [tag_s; 1; 97] [tag_y; 1; 97]); reflexivity.
Defined.

(** ** Integers *)

Lemma integer_bytes (rb_to_s : VALUE -> outcome rstring) (n : Z) (bytes : list N) :
  (- 2 ^ 63 <= n < 2 ^ 63)%Z ->
  canonical_serialize rb_to_s (RInteger n) bytes =
  Ok (bytes ++ tag_i :: varint (zigzag_spec n)).
Proof.
  intros H. cbn [canonical_serialize]. unfold seq, push_back, NUM2LL, encode_varint.
  cbn [bind].
  replace ((- 2 ^ 63 <=? n)%Z && (n <? 2 ^ 63)%Z) with true
    by (symmetry; apply andb_true_iff; split; [apply Z.leb_le | apply Z.ltb_lt]; lia).
  cbn [bind]. rewrite encode_varint_loop_app, zigzag_correct by assumption.
  rewrite <- app_assoc. reflexivity.
Qed.

(** X4. Two Integers that fit 64 bits signed and get the same encoding are
    equal; such an encoding has between 2 and 11 bytes. *)
Theorem integers_encode_injectively (rb_to_s : VALUE -> outcome rstring) (a b : Z) :
  (- 2 ^ 63 <= a < 2 ^ 63)%Z -> (- 2 ^ 63 <= b < 2 ^ 63)%Z ->
  (canonical_serialize rb_to_s (RInteger a) [] =
   canonical_serialize rb_to_s (RInteger b) [] -> a = b) /\
  (exists out, canonical_serialize rb_to_s (RInteger a) [] = Ok out /\
               (2 <= List.length out <= 11)%nat).
Proof.
  intros Ha Hb. rewrite !integer_bytes by assumption. cbn [app]. split.
  - intros E. apply Ok_inj in E. injection E as E.
    apply zigzag_spec_inj; [assumption | assumption |].
    apply (varint_prefix_free _ _ [] []). rewrite !app_nil_r. exact E.
  - eexists. split; [reflexivity|]. cbn [List.length].
    pose proof (varint_length_64 (zigzag_spec a) (zigzag_spec_bound a Ha)) as Hu.
    pose proof (varint_nonempty (zigzag_spec a)) as Hl.
    destruct (varint (zigzag_spec a)); [contradiction | cbn [List.length] in *; lia].
Qed.

Lemma integers_encode_injectively_witness :
  (canonical_serialize plain_to_s (RInteger (- 2 ^ 63)) [] =
   canonical_serialize plain_to_s (RInteger (2 ^ 63 - 1)) [] ->
   (- 2 ^ 63 = 2 ^ 63 - 1)%Z) /\
  (exists out, canonical_serialize plain_to_s (RInteger (- 2 ^ 63)) [] = Ok out /\
               (2 <= List.length out <= 11)%nat).
Proof. apply (integers_encode_injectively plain_to_s (- 2 ^ 63) (2 ^ 63 - 1)); lia. Defined.

(** ** Strings and Symbols *)

Lemma map_uint8_of_char_inj (s1 s2 : rstring) :
  map uint8_of_char s1 = map uint8_of_char s2 -> s1 = s2.
Proof.
  revert s2. induction s1 as [|c s1 IH]; intros [|d s2]; cbn [map];
    try discriminate; [reflexivity|].
  intros E. injection E as Ec Es. apply to_N_inj in Ec. subst d.
  f_equal. apply IH. exact Es.
Qed.

Lemma serialize_string_inj (tag : N) (s1 s2 : rstring) :
  serialize_string tag s1 [] = serialize_string tag s2 [] -> s1 = s2.
Proof.
  rewrite !serialize_string_bytes. cbn [app]. intros E. apply Ok_inj in E.
  injection E as E. apply varint_prefix_free in E as [_ E].
  apply map_uint8_of_char_inj. exact E.
Qed.

(** X5. A String is written as [s], the varint of its length and its bytes,
    a Symbol the same with [y]; the encoding determines the bytes, and a
    String never encodes like a Symbol. *)
Theorem string_and_symbol_encoding (rb_to_s : VALUE -> outcome rstring) :
  (forall s bytes,
     canonical_serialize rb_to_s (RString s) bytes =
     Ok (bytes ++ tag_s :: varint (N.of_nat (List.length s)) ++ map uint8_of_char s)) /\
  (forall name bytes,
     canonical_serialize rb_to_s (RSymbol name) bytes =
     Ok (bytes ++ tag_y :: varint (N.of_nat (List.length name)) ++ map uint8_of_char name)) /\
  (forall s1 s2,
     canonical_serialize rb_to_s (RString s1) [] =
     canonical_serialize rb_to_s (RString s2) [] -> s1 = s2) /\
  (forall n1 n2,
     canonical_serialize rb_to_s (RSymbol n1) [] =
     canonical_serialize rb_to_s (RSymbol n2) [] -> n1 = n2) /\
  (forall s name,
     canonical_serialize rb_to_s (RString s) [] <>
     canonical_serialize rb_to_s (RSymbol name) []).
Proof.
  repeat apply conj.
  - intros s bytes. apply serialize_string_bytes.
  - intros name bytes. apply serialize_string_bytes.
  - intros s1 s2. apply serialize_string_inj.
  - intros n1 n2. apply serialize_string_inj.
  - intros s name. cbn [canonical_serialize]. rewrite !serialize_string_bytes.
    cbn [app]. intros E. apply Ok_inj in E. injection E as E _. discriminate E.
Qed.

Lemma string_and_symbol_encoding_witness :
  text_a = text_a.
Proof.
  apply (proj1 (proj2 (proj2 (string_and_symbol_encoding plain_to_s))) text_a text_a).
  reflexivity.
Defined.

(** ** Arrays *)

Lemma for_each_serialize_concat (rb_to_s : VALUE -> outcome rstring)
    (elems : list VALUE) (encs : list (list N)) (acc : list N) :
  Forall2 (fun x enc => canonical_serialize rb_to_s x [] = Ok enc) elems encs ->
  for_each (canonical_serialize rb_to_s) elems acc = Ok (acc ++ List.concat encs).
Proof.
  intros H. revert acc. induction H as [|x enc elems encs Hx _ IH]; intros acc;
    cbn [for_each List.concat].
  - unfold skip. rewrite app_nil_r. reflexivity.
  - unfold seq. rewrite (canonical_serialize_appends_only rb_to_s x acc), Hx.
    unfold prepend, outcome_map. cbn [bind]. rewrite IH, app_assoc. reflexivity.
Qed.

Lemma for_each_serialize_raises (rb_to_s : VALUE -> outcome rstring)
    (before after : list VALUE) (x : VALUE) (e : rb_exception) (acc : list N) :
  Forall (fun y => is_ok (canonical_serialize rb_to_s y []) = true) before ->
  canonical_serialize rb_to_s x [] = RubyRaise e ->
  for_each (canonical_serialize rb_to_s) (before ++ x :: after) acc = RubyRaise e.
Proof.
  intros H Hx. revert acc. induction H as [|y before Hy _ IH]; intros acc;
    cbn [for_each app]; unfold seq.
  - rewrite (canonical_serialize_appends_only rb_to_s x acc), Hx. reflexivity.
  - rewrite (canonical_serialize_appends_only rb_to_s y acc).
    destruct (canonical_serialize rb_to_s y []) as [enc| |]; try discriminate.
    unfold prepend, outcome_map. cbn [bind]. apply IH.
Qed.

(** X6. When every element of an Array encodes, the Array encodes as [a],
    the varint of the number of elements and the elements' encodings one
    after the other, in order. *)
Theorem array_encoding_concatenates (rb_to_s : VALUE -> outcome rstring)
    (elems : list VALUE) (encs : list (list N)) (bytes : list N) :
  Forall2 (fun x enc => canonical_serialize rb_to_s x [] = Ok enc) elems encs ->
  canonical_serialize rb_to_s (RArray elems) bytes =
  Ok (bytes ++ tag_a :: varint (N.of_nat (List.length elems)) ++ List.concat encs).
Proof.
  intros H. cbn [canonical_serialize]. unfold seq, push_back, encode_varint.
  cbn [bind]. rewrite encode_varint_loop_app.
  rewrite (for_each_serialize_concat rb_to_s elems encs _ H).
  rewrite <- !app_assoc. reflexivity.
Qed.

Lemma array_encoding_concatenates_witness :
  canonical_serialize plain_to_s (RArray [RNil; RInteger 5]) [] =
  Ok ([] ++ tag_a :: varint (N.of_nat 2) ++ List.concat [[tag_n]; [tag_i; 10]]).
Proof.
  apply (array_encoding_concatenates plain_to_s [RNil; RInteger 5] [[tag_n]; [tag_i; 10]] []).
  repeat constructor.
Defined.

(** X7. An Array raises what its first failing element raises: the elements
    after it are not looked at. *)
Theorem array_raises_at_first_failing_element (rb_to_s : VALUE -> outcome rstring)
    (before after : list VALUE) (x : VALUE) (e : rb_exception) (bytes : list N) :
  Forall (fun y => is_ok (canonical_serialize rb_to_s y []) = true) before ->
  canonical_serialize rb_to_s x [] = RubyRaise e ->
  canonical_serialize rb_to_s (RArray (before ++ x :: after)) bytes = RubyRaise e.
Proof.
  intros H Hx. cbn [canonical_serialize]. unfold seq, push_back, encode_varint.
  cbn [bind]. apply for_each_serialize_raises; assumption.
Qed.

Lemma array_raises_at_first_failing_element_witness :
  canonical_serialize plain_to_s
    (RArray ([RNil] ++ RInteger (2 ^ 63) :: [RTime (2 ^ 64) 0])) [] =
  RubyRaise (rb_eRangeError "bignum too big to convert into 'long long'").
Proof.
  apply (array_raises_at_first_failing_element plain_to_s [RNil] [RTime (2 ^ 64) 0]
           (RInteger (2 ^ 63))).
  - repeat constructor.
  - reflexivity.
Defined.

(** ** Hashes: the keys are rendered before anything is written *)

Lemma collect_keys_raises (rb_to_s : VALUE -> outcome rstring)
    (before after : list VALUE) (k : VALUE) (e : rb_exception) :
  Forall (fun q => is_ok (rb_to_s q) = true) before ->
  rb_to_s k = RubyRaise e ->
  collect_keys rb_to_s (before ++ k :: after) = RubyRaise e.
Proof.
  intros H Hk. induction H as [|q before Hq _ IH]; cbn [collect_keys app].
  - rewrite Hk. reflexivity.
  - destruct (rb_to_s q) as [s| |]; try discriminate. cbn [bind].
    rewrite IH. reflexivity.
Qed.

(** X8. A Hash raises what [to_s] raises on the first key, in insertion
    order, on which it raises: all keys are rendered before any pair is
    written, so no value is looked at, whatever it would have done. *)
Theorem hash_raises_at_first_failing_key (rb_to_s : VALUE -> outcome rstring)
    (before after : list (VALUE * VALUE)) (p : VALUE * VALUE)
    (e : rb_exception) (bytes : list N) :
  Forall (fun q => is_ok (rb_to_s (fst q)) = true) before ->
  rb_to_s (fst p) = RubyRaise e ->
  canonical_serialize rb_to_s (RHash (before ++ p :: after)) bytes = RubyRaise e.
Proof.
  intros H Hp. cbn [canonical_serialize]. unfold seq, push_back, encode_varint.
  cbn [bind]. rewrite map_app. cbn [map].
  rewrite (collect_keys_raises rb_to_s (map fst before) (map fst after) (fst p) e).
  - reflexivity.
  - rewrite Forall_map. exact H.
  - exact Hp.
Qed.

Lemma hash_raises_at_first_failing_key_witness :
  canonical_serialize (core_to_s raising_to_s)
    (RHash ([(RInteger 1, RInteger (2 ^ 64))] ++ (object_without_to_s, RNil) :: [])) [] =
  RubyRaise (RbException "NoMethodError" "undefined method 'to_s'").
Proof.
  apply (hash_raises_at_first_failing_key (core_to_s raising_to_s)
           [(RInteger 1, RInteger (2 ^ 64))] [] (object_without_to_s, RNil)).
  - repeat constructor.
  - reflexivity.
Defined.

(** ** Objects written by class name and text *)

(** X9. An object of any other class is written as [o], the varint of a
    length and the bytes of its class name, a colon and its text; two such
    objects encode alike exactly when these bytes agree, even if class name
    and text are split at different colons. *)
Theorem object_encoding (rb_to_s : VALUE -> outcome rstring)
    (class_1 class_2 : rstring) (id_1 id_2 : N) (text_of_1 text_of_2 : rstring) :
  rb_to_s (RObject class_1 id_1) = Ok text_of_1 ->
  rb_to_s (RObject class_2 id_2) = Ok text_of_2 ->
  (forall bytes,
     canonical_serialize rb_to_s (RObject class_1 id_1) bytes =
     Ok (bytes ++ tag_o ::
           varint (N.of_nat (List.length (class_1 ++ [colon] ++ text_of_1))) ++
           map uint8_of_char (class_1 ++ [colon] ++ text_of_1))) /\
  (class_1 ++ [colon] ++ text_of_1 = class_2 ++ [colon] ++ text_of_2 <->
   canonical_serialize rb_to_s (RObject class_1 id_1) [] =
   canonical_serialize rb_to_s (RObject class_2 id_2) []).
Proof.
  intros E1 E2.
  assert (Enc : forall c i t bytes, rb_to_s (RObject c i) = Ok t ->
    canonical_serialize rb_to_s (RObject c i) bytes =
    Ok (bytes ++ tag_o :: varint (N.of_nat (List.length (c ++ [colon] ++ t))) ++
          map uint8_of_char (c ++ [colon] ++ t))).
  { intros c i t bytes E. cbn [canonical_serialize]. unfold seq at 1. unfold push_back.
    cbn [bind]. rewrite E. cbn [bind].
    pose proof (serialize_string_bytes tag_o (c ++ [colon] ++ t) bytes) as S.
    unfold serialize_string, seq at 1, push_back in S. cbn [bind] in S. exact S. }
  split.
  - intros bytes. apply Enc. exact E1.
  - rewrite (Enc _ _ _ [] E1), (Enc _ _ _ [] E2). cbn [app]. split.
    + intros ->. reflexivity.
    + intros E. apply Ok_inj in E. injection E as E.
      apply varint_prefix_free in E as [_ E].
      apply map_uint8_of_char_inj. exact E.
Qed.

Lemma object_encoding_witness :
  canonical_serialize labelled_to_s object_of_outer_class [] =
  canonical_serialize labelled_to_s object_of_nested_class [].
Proof.
  apply (proj2 (object_encoding labelled_to_s
                  text_a [Byte.x61; Byte.x3a; Byte.x3a; Byte.x62] 0 1
                  [Byte.x3a; Byte.x62; Byte.x3a; Byte.x31] text_1
                  eq_refl eq_refl)).
  reflexivity.
Defined.

(** ** The FNV-1a loop *)

Lemma fnv1a_loop_app (front back : list N) (h : N) :
  fnv1a_loop (front ++ back) h = fnv1a_loop back (fnv1a_loop front h).
Proof.
  revert h. induction front as [|byte rest IH]; intros h; cbn [fnv1a_loop app].
  - reflexivity.
  - apply IH.
Qed.

Lemma fnv1a_loop_64_bits (bytes : list N) (h : N) :
  h < 2 ^ 64 -> fnv1a_loop bytes h < 2 ^ 64.
Proof.
  revert h. induction bytes as [|byte rest IH]; intros h H; cbn [fnv1a_loop].
  - exact H.
  - apply IH. rewrite land_MASK64. apply N.mod_lt. discriminate.
Qed.

(** X10. The FNV-1a loop can be fed a buffer in two parts, and its state
    started at the offset basis stays below [2^64]. *)
Theorem fnv1a_loop_streams (front back : list N) :
  fnv1a_loop (front ++ back) FNV_OFFSET =
    fnv1a_loop back (fnv1a_loop front FNV_OFFSET) /\
  fnv1a_loop front FNV_OFFSET < 2 ^ 64.
Proof.
  split; [apply fnv1a_loop_app | apply fnv1a_loop_64_bits; reflexivity].
Qed.

(** ** Times *)

Lemma varint_inj (a b : N) : varint a = varint b -> a = b.
Proof.
  intros E. apply (varint_prefix_free a b [] []). rewrite E. reflexivity.
Qed.

Lemma time_bytes (rb_to_s : VALUE -> outcome rstring) (to_i nsec : Z) (bytes : list N) :
  (- 2 ^ 63 <= to_i < 2 ^ 64)%Z -> (- 2 ^ 63 <= nsec < 2 ^ 64)%Z ->
  canonical_serialize rb_to_s (RTime to_i nsec) bytes =
  Ok (bytes ++ tag_T :: varint (Z.to_N (to_i mod 2 ^ 64)) ++
                         varint (Z.to_N (nsec mod 2 ^ 64))).
Proof.
  intros Hs Hn. cbn [canonical_serialize]. unfold seq, push_back, encode_varint.
  cbn [bind]. rewrite (NUM2ULL_in_range to_i Hs). cbn [bind].
  rewrite (NUM2ULL_in_range nsec Hn). cbn [bind].
  rewrite !encode_varint_loop_app, <- !app_assoc. reflexivity.
Qed.

(** X12. Two Times whose fields [NUM2ULL] accepts encode alike exactly when
    their seconds agree modulo [2^64] and their nanoseconds do: a negative
    count of seconds collides with the count [2^64] above it. *)
Theorem times_encode_modulo_2_64 (rb_to_s : VALUE -> outcome rstring)
    (to_i_1 nsec_1 to_i_2 nsec_2 : Z) :
  (- 2 ^ 63 <= to_i_1 < 2 ^ 64)%Z -> (- 2 ^ 63 <= nsec_1 < 2 ^ 64)%Z ->
  (- 2 ^ 63 <= to_i_2 < 2 ^ 64)%Z -> (- 2 ^ 63 <= nsec_2 < 2 ^ 64)%Z ->
  (canonical_serialize rb_to_s (RTime to_i_1 nsec_1) [] =
   canonical_serialize rb_to_s (RTime to_i_2 nsec_2) [] <->
   (to_i_1 mod 2 ^ 64 = to_i_2 mod 2 ^ 64 /\ nsec_1 mod 2 ^ 64 = nsec_2 mod 2 ^ 64)%Z).
Proof.
  intros H1 N1 H2 N2. rewrite !time_bytes by assumption. cbn [app]. split.
  - intros E. apply Ok_inj in E. apply (f_equal (@tl N)) in E. cbn [tl] in E.
    apply varint_prefix_free in E as [Es En].
    apply varint_inj in En.
    pose proof (Z.mod_pos_bound to_i_1 (2 ^ 64)). pose proof (Z.mod_pos_bound to_i_2 (2 ^ 64)).
    pose proof (Z.mod_pos_bound nsec_1 (2 ^ 64)). pose proof (Z.mod_pos_bound nsec_2 (2 ^ 64)).
    split; apply Z2N.inj; lia.
  - intros [-> ->]. reflexivity.
Qed.

Lemma times_encode_modulo_2_64_witness :
  canonical_serialize plain_to_s (RTime (-1) 0) [] =
  canonical_serialize plain_to_s (RTime (2 ^ 64 - 1) 0) [].
Proof.
  apply (proj2 (times_encode_modulo_2_64 plain_to_s (-1) 0 (2 ^ 64 - 1) 0
                  ltac:(lia) ltac:(lia) ltac:(lia) ltac:(lia))).
  split; reflexivity.
Defined.

(** ** Equal encodings of the parts give equal encodings of the whole *)

Lemma for_each_Forall2 {A : Type} (body1 body2 : A -> writer) (l1 l2 : list A) :
  Forall2 (fun x y => forall bytes, body1 x bytes = body2 y bytes) l1 l2 ->
  forall bytes, for_each body1 l1 bytes = for_each body2 l2 bytes.
Proof.
  induction 1 as [|x y l1 l2 Hxy _ IH]; intros bytes; cbn [for_each]; [reflexivity|].
  unfold seq. rewrite Hxy. destruct (body2 y bytes) as [mid| |]; cbn [bind];
    [apply IH | reflexivity | reflexivity].
Qed.

Lemma find_cons {A : Type} (f : A -> bool) (x : A) (l : list A) :
  find f (x :: l) = if f x then Some x else find f l.
Proof. reflexivity. Qed.

Lemma rb_hash_aref_Forall2 (table1 table2 : list (VALUE * writer)) (key : VALUE) :
  Forall2 (fun e1 e2 => fst e1 = fst e2 /\ forall bytes, snd e1 bytes = snd e2 bytes)
    table1 table2 ->
  forall bytes, rb_hash_aref table1 key bytes = rb_hash_aref table2 key bytes.
Proof.
  unfold rb_hash_aref.
  induction 1 as [|e1 e2 t1 t2 [Hk Hw] _ IH]; intros bytes; [reflexivity|].
  rewrite !find_cons. cbv beta. unfold writer in *. rewrite <- Hk.
  destruct (VALUE_eqb key (fst e1)); [apply Hw | apply IH].
Qed.

(** X13. Arrays whose elements encode alike one by one encode alike, Hashes
    with the same keys in the same order whose values encode alike encode
    alike, and values that encode alike get the same seed. *)
Theorem same_encoding_congruence (rb_to_s : VALUE -> outcome rstring) :
  (forall xs ys,
     Forall2 (same_encoding rb_to_s) xs ys ->
     same_encoding rb_to_s (RArray xs) (RArray ys)) /\
  (forall ps qs,
     Forall2 (fun p q => fst p = fst q /\ same_encoding rb_to_s (snd p) (snd q)) ps qs ->
     same_encoding rb_to_s (RHash ps) (RHash qs)) /\
  (forall v w,
     same_encoding rb_to_s v w -> to_seed_int rb_to_s v = to_seed_int rb_to_s w).
Proof.
  repeat apply conj.
  - intros xs ys H bytes. cbn [canonical_serialize]. unfold seq, push_back, encode_varint.
    cbn [bind]. rewrite (Forall2_length H).
    apply for_each_Forall2. exact H.
  - intros ps qs H bytes. cbn [canonical_serialize]. unfold seq, push_back, encode_varint.
    cbn [bind].
    assert (Ek : map fst ps = map fst qs).
    { clear bytes. induction H as [|p q ps qs [Hk _] _ IH]; cbn [map]; [reflexivity|].
      rewrite Hk, IH. reflexivity. }
    rewrite Ek.
    destruct (collect_keys rb_to_s (map fst qs)) as [sorted_keys| |]; cbn [bind];
      try reflexivity.
    apply for_each_ext_in. intros key_pair _ buf. unfold seq.
    destruct (serialize_string tag_s (fst key_pair) buf) as [mid| |]; cbn [bind];
      try reflexivity.
    apply rb_hash_aref_Forall2.
    clear - H. induction H as [|p q ps qs [Hk Hv] _ IH]; cbn [map]; constructor.
    + cbn [fst snd]. split; [exact Hk | exact Hv].
    + exact IH.
  - intros v w H. unfold to_seed_int. rewrite (H []). reflexivity.
Qed.

Lemma same_encoding_congruence_witness :
  to_seed_int (core_to_s plain_to_s) (RArray [RHash plain_pairs; RNil]) =
  to_seed_int (core_to_s plain_to_s) (RArray [RHash plain_pairs_swapped; RNil]).
Proof.
  apply (proj2 (proj2 (same_encoding_congruence (core_to_s plain_to_s)))).
  apply (proj1 (same_encoding_congruence (core_to_s plain_to_s))).
  constructor.
  - intros bytes. rewrite !hash_serialized_paired.
    + apply (hash_paired_perm (core_to_s plain_to_s) plain_pairs plain_pairs_swapped
               [text_1; text_2]).
      * apply perm_swap.
      * reflexivity.
      * repeat constructor; cbn; intuition discriminate.
    + repeat constructor; cbn; intuition discriminate.
    + repeat constructor; cbn; intuition discriminate.
  - constructor; [|constructor]. intros bytes. reflexivity.
Defined.

(** ** When a seed is returned *)

Lemma fold_right_and_Forall {A : Type} (P : A -> Prop) (l : list A) :
  fold_right (fun x rest => P x /\ rest) True l <-> Forall P l.
Proof.
  induction l as [|x l IH]; cbn [fold_right].
  - split; [constructor | trivial].
  - rewrite IH. split; [intros [H1 H2]; constructor; assumption|].
    intros H. apply Forall_cons_iff in H. exact H.
Qed.

Lemma ok_on_some_buffer (rb_to_s : VALUE -> outcome rstring) (v : VALUE)
    (bytes out : list N) :
  canonical_serialize rb_to_s v bytes = Ok out ->
  is_ok (canonical_serialize rb_to_s v []) = true.
Proof.
  rewrite (canonical_serialize_appends_only rb_to_s v bytes).
  destruct (canonical_serialize rb_to_s v []); [reflexivity | discriminate | discriminate].
Qed.

Lemma for_each_ok_inv {A : Type} (body : A -> writer) (l : list A) (acc out : list N) :
  for_each body l acc = Ok out ->
  forall x, In x l -> exists bytes out', body x bytes = Ok out'.
Proof.
  revert acc. induction l as [|y rest IH]; intros acc E x Hx; [contradiction|].
  cbn [for_each] in E. unfold seq in E.
  destruct (body y acc) as [mid| |] eqn:Ey; cbn [bind] in E; try discriminate.
  destruct Hx as [<-|Hx].
  - exists acc, mid. exact Ey.
  - apply (IH mid E x Hx).
Qed.

Lemma collect_pairs_all_ok (rb_to_s : VALUE -> outcome rstring)
    (pairs : list (VALUE * VALUE)) (rendered : list (rstring * (VALUE * VALUE))) :
  collect_pairs rb_to_s pairs = Ok rendered ->
  forall p, In p pairs -> is_ok (rb_to_s (fst p)) = true.
Proof.
  revert rendered. induction pairs as [|q rest IH]; intros rendered E p Hp;
    [contradiction|].
  cbn [collect_pairs] in E.
  destruct (rb_to_s (fst q)) as [s| |] eqn:Es; cbn [bind] in E; try discriminate.
  destruct (collect_pairs rb_to_s rest) as [l| |]; cbn [bind] in E; try discriminate.
  destruct Hp as [<-|Hp]; [rewrite Es; reflexivity | apply (IH l eq_refl p Hp)].
Qed.

Lemma returns_host_quiet (rb_to_s : VALUE -> outcome rstring) (v : VALUE) :
  maps_well_formed v ->
  is_ok (canonical_serialize rb_to_s v []) = true ->
  host_quiet rb_to_s v = true.
Proof.
  induction v as [| | |n|bits|s|name|elems IH|pairs IH|to_i nsec|class_name object_id]
    using VALUE_nested_ind; cbn [maps_well_formed host_quiet]; intros W E;
    try reflexivity.
  - cbn [canonical_serialize] in E. unfold seq, push_back, NUM2LL in E. cbn [bind] in E.
    unfold in_long_long. destruct (_ && _)%bool; [reflexivity | discriminate E].
  - apply fold_right_and_Forall in W. rewrite Forall_forall in W, IH.
    apply forallb_forall. intros x Hx. apply (IH x Hx (W x Hx)).
    cbn [canonical_serialize] in E. unfold seq, push_back, encode_varint in E.
    cbn [bind] in E.
    destruct (for_each _ elems _) as [out| |] eqn:Ef; try discriminate.
    destruct (for_each_ok_inv _ _ _ _ Ef x Hx) as (b & o & Eb).
    apply (ok_on_some_buffer rb_to_s x b o Eb).
  - destruct W as [Hn W]. apply fold_right_and_Forall in W.
    rewrite Forall_forall in W, IH.
    rewrite (hash_serialized_paired rb_to_s pairs [] Hn) in E.
    unfold serialize_hash_paired, seq, push_back, encode_varint in E. cbn [bind] in E.
    destruct (collect_pairs rb_to_s pairs) as [rendered| |] eqn:Ec; cbn [bind] in E;
      try discriminate.
    destruct (for_each _ (std_sort pair_lt rendered) _) as [out| |] eqn:Ef; try discriminate.
    apply forallb_forall. intros p Hp. apply andb_true_iff. split.
    + apply (collect_pairs_all_ok rb_to_s pairs rendered Ec p Hp).
    + apply (IH p Hp); [apply (W p Hp)|].
      assert (Hin : In (rendering rb_to_s (fst p), p) (std_sort pair_lt rendered)).
      { apply (Permutation_in _ (Permutation_sym (std_sort_perm pair_lt rendered))).
        rewrite (collect_pairs_Ok rb_to_s pairs rendered Ec).
        apply in_map_iff. exists p. split; [reflexivity | exact Hp]. }
      destruct (for_each_ok_inv _ _ _ _ Ef _ Hin) as (b & o & Eb).
      cbn [fst snd] in Eb. unfold seq in Eb.
      destruct (serialize_string tag_s (rendering rb_to_s (fst p)) b) as [mid| |];
        cbn [bind] in Eb; try discriminate.
      apply (ok_on_some_buffer rb_to_s (snd p) mid o Eb).
  - cbn [canonical_serialize] in E. unfold seq, push_back, NUM2ULL in E. cbn [bind] in E.
    unfold in_unsigned_long_long.
    destruct ((- 2 ^ 63 <=? to_i)%Z && (to_i <? 2 ^ 64)%Z); cbn [bind] in E;
      [|destruct ((- 2 ^ 64 <? to_i)%Z && (to_i <? 0)%Z); discriminate E].
    unfold encode_varint at 1 in E. cbn [bind] in E.
    destruct ((- 2 ^ 63 <=? nsec)%Z && (nsec <? 2 ^ 64)%Z);
      [reflexivity | destruct ((- 2 ^ 64 <? nsec)%Z && (nsec <? 0)%Z); discriminate E].
  - cbn [canonical_serialize] in E. unfold seq, push_back in E. cbn [bind] in E.
    destruct (rb_to_s (RObject class_name object_id)); [reflexivity | discriminate E | discriminate E].
Qed.

(** X14. For a value whose Hashes have pairwise distinct keys,
    [to_seed_int] returns a seed exactly when no call into the Ruby runtime
    raises on the way: every Integer fits [long long], every field of a Time
    is accepted by [NUM2ULL], and [to_s] returns for every key and every
    object written by class name and text. *)
Theorem seed_returned_iff_host_quiet (rb_to_s : VALUE -> outcome rstring) (v : VALUE) :
  maps_well_formed v ->
  ((exists seed, to_seed_int rb_to_s v = Ok seed) <-> host_quiet rb_to_s v = true).
Proof.
  intros W. split.
  - intros [seed E]. apply returns_host_quiet; [exact W|].
    unfold to_seed_int in E.
    destruct (canonical_serialize rb_to_s v []); [reflexivity | discriminate E | discriminate E].
  - intros Q. destruct (host_quiet_succeeds rb_to_s v Q []) as [out E].
    unfold to_seed_int. rewrite E. cbn [bind]. eexists. reflexivity.
Qed.

Lemma quiet_sample_well_formed : maps_well_formed quiet_sample.
Proof.
  cbn. split; [|auto 10].
  repeat constructor; cbn; intuition discriminate.
Qed.

Lemma seed_returned_iff_host_quiet_witness :
  exists seed, to_seed_int (core_to_s plain_to_s) quiet_sample = Ok seed.
Proof.
  apply (proj2 (seed_returned_iff_host_quiet (core_to_s plain_to_s) quiet_sample
                  quiet_sample_well_formed)).
  reflexivity.
Defined.

(** ** The comparison handed to [std::sort] *)

(** X15. The comparison handed to [std::sort] is a strict weak order, as
    [std::sort] requires: irreflexive, asymmetric and transitive, and two
    entries are equivalent for it exactly when their texts are equal. *)
Theorem key_pair_lt_strict_weak_order :
  (forall a, key_pair_lt a a = false) /\
  (forall a b, key_pair_lt a b = true -> key_pair_lt b a = false) /\
  (forall a b c,
     key_pair_lt a b = true -> key_pair_lt b c = true -> key_pair_lt a c = true) /\
  (forall a b,
     key_pair_lt a b = false /\ key_pair_lt b a = false <-> fst a = fst b).
Proof.
  unfold key_pair_lt. repeat apply conj.
  - intros a. apply string_lt_irrefl.
  - intros a b H. destruct (string_lt (fst b) (fst a)) eqn:E; [|reflexivity].
    pose proof (string_lt_trans _ _ _ H E) as C. rewrite string_lt_irrefl in C.
    discriminate C.
  - intros a b c. apply string_lt_trans.
  - intros a b. split.
    + intros [H1 H2].
      destruct (list_eq_dec byte_eq_dec (fst a) (fst b)) as [E|E]; [exact E|].
      destruct (string_lt_total _ _ E); congruence.
    + intros E. rewrite E, string_lt_irrefl. split; reflexivity.
Qed.

Lemma key_pair_lt_strict_weak_order_witness :
  key_pair_lt (text_1, RInteger 1) (text_1, RString text_1) = false /\
  key_pair_lt (text_1, RString text_1) (text_1, RInteger 1) = false.
Proof.
  apply (proj2 (proj2 (proj2 (proj2 key_pair_lt_strict_weak_order))
                  (text_1, RInteger 1) (text_1, RString text_1))).
  reflexivity.
Defined.

(** ** Every pair of a Hash is written once, in the order of the texts *)

(** X16. A Hash with pairwise distinct keys whose [to_s] calls return is
    written as [h], the varint of the number of pairs and then every pair
    exactly once, the text of the key as a String before the value, in
    non-decreasing byte-wise order of the texts; also when texts collide. *)
Theorem hash_writes_each_pair_once (rb_to_s : VALUE -> outcome rstring)
    (pairs : list (VALUE * VALUE)) (rs : list rstring) :
  NoDup (map fst pairs) ->
  renderings rb_to_s (map fst pairs) = Ok rs ->
  exists sorted,
    Permutation sorted pairs /\
    StronglySorted (key_le (fun p => rendering rb_to_s (fst p))) sorted /\
    forall bytes,
      canonical_serialize rb_to_s (RHash pairs) bytes =
      (push_back tag_h ;;
       encode_varint (N.of_nat (List.length pairs)) ;;
       for_each
         (fun p =>
            serialize_string tag_s (rendering rb_to_s (fst p)) ;;
            canonical_serialize rb_to_s (snd p))
         sorted) bytes.
Proof.
  intros Hn Er.
  exists (std_sort (by_key (fun p => rendering rb_to_s (fst p))) pairs).
  split; [apply std_sort_perm|]. split; [apply std_sort_sorted_le|].
  intros bytes. apply (hash_serialized_by_rendering rb_to_s pairs rs bytes Hn Er).
Qed.

Lemma hash_writes_each_pair_once_witness :
  exists sorted,
    Permutation sorted colliding_pairs /\
    StronglySorted (key_le (fun p => rendering (core_to_s plain_to_s) (fst p))) sorted /\
    forall bytes,
      canonical_serialize (core_to_s plain_to_s) (RHash colliding_pairs) bytes =
      (push_back tag_h ;;
       encode_varint (N.of_nat (List.length colliding_pairs)) ;;
       for_each
         (fun p =>
            serialize_string tag_s (rendering (core_to_s plain_to_s) (fst p)) ;;
            canonical_serialize (core_to_s plain_to_s) (snd p))
         sorted) bytes.
Proof.
  apply (hash_writes_each_pair_once (core_to_s plain_to_s) colliding_pairs [text_1; text_1]).
  - repeat constructor; cbn; intuition discriminate.
  - reflexivity.
Defined.

(** ** What a varint spells *)

(** X17. The low seven bits of the bytes [encode_varint] appends, least
    significant group first, spell the number encoded. *)
Theorem varint_spells_its_number (num : N) :
  of_varint (varint num) = num.
Proof.
  induction num as [num IH] using (well_founded_induction N.lt_wf_0).
  destruct (N.lt_ge_cases num 128) as [Hs|Hl].
  - rewrite varint_small by exact Hs. cbn [of_varint fold_right].
    rewrite N.mod_small by exact Hs. lia.
  - rewrite varint_large by exact Hl. cbn [of_varint fold_right].
    fold (of_varint (varint (num / 128))). rewrite IH by (apply N.div_lt; lia).
    replace ((num mod 128 + 128) mod 128) with (num mod 128).
    + rewrite N.add_comm. symmetry. apply N.div_mod. discriminate.
    + apply (N.mod_unique _ _ 1); [apply N.mod_lt; discriminate|].
      rewrite N.mul_1_r. apply N.add_comm.
Qed.

(** ** Encodings delimit themselves *)

Lemma app_eq_same_length {A : Type} (x y r r' : list A) :
  List.length x = List.length y -> x ++ r = y ++ r' -> x = y /\ r = r'.
Proof.
  revert y. induction x as [|a x IH]; intros [|b y] L E; cbn [List.length app] in *;
    try discriminate.
  - split; [reflexivity | exact E].
  - injection E as -> E. injection L as L. destruct (IH y L E) as [-> ->].
    split; reflexivity.
Qed.

Lemma length_prefixed_delimited (s s' : rstring) (r r' : list N) :
  length_prefixed s ++ r = length_prefixed s' ++ r' -> s = s' /\ r = r'.
Proof.
  unfold length_prefixed. rewrite <- !app_assoc. intros E.
  apply varint_prefix_free in E as [L E].
  apply Nat2N.inj in L.
  apply app_eq_same_length in E as [E ->]; [|rewrite !length_map; exact L].
  split; [apply map_uint8_of_char_inj; exact E | reflexivity].
Qed.

Lemma serialize_string_length_prefixed (tag : N) (s : rstring) (bytes : list N) :
  serialize_string tag s bytes = Ok (bytes ++ tag :: length_prefixed s).
Proof. apply serialize_string_bytes. Qed.

Lemma concat_delimited (P Q : list N -> Prop) (xs ys : list (list N)) (r r' : list N) :
  (forall x y s s', P x -> Q y -> x ++ s = y ++ s' -> x = y /\ s = s') ->
  List.length xs = List.length ys ->
  Forall P xs -> Forall Q ys ->
  List.concat xs ++ r = List.concat ys ++ r' -> xs = ys /\ r = r'.
Proof.
  intros H. revert ys. induction xs as [|x xs IH]; intros [|y ys] L Hx Hy E;
    cbn [List.length List.concat app] in *; try discriminate.
  - split; [reflexivity | exact E].
  - rewrite <- !app_assoc in E.
    apply Forall_cons_iff in Hx as [Px Hx]. apply Forall_cons_iff in Hy as [Qy Hy].
    destruct (H x y _ _ Px Qy E) as [-> E'].
    injection L as L. destruct (IH ys L Hx Hy E') as [-> ->].
    split; reflexivity.
Qed.

(** *** What a returned encoding looks like, case by case *)

Lemma integer_returned (rb_to_s : VALUE -> outcome rstring) (n : Z) (enc : list N) :
  canonical_serialize rb_to_s (RInteger n) [] = Ok enc ->
  enc = tag_i :: varint (zigzag n).
Proof.
  cbn [canonical_serialize]. unfold seq, push_back, NUM2LL, encode_varint. cbn [bind app].
  destruct (_ && _)%bool; cbn [bind]; [|discriminate].
  rewrite (encode_varint_loop_app _ [tag_i]). intros E. apply Ok_inj in E.
  symmetry. exact E.
Qed.

Lemma time_returned (rb_to_s : VALUE -> outcome rstring) (to_i nsec : Z) (enc : list N) :
  canonical_serialize rb_to_s (RTime to_i nsec) [] = Ok enc ->
  exists secs nanos, enc = tag_T :: varint secs ++ varint nanos.
Proof.
  cbn [canonical_serialize]. unfold seq, push_back, encode_varint. cbn [bind app].
  destruct (NUM2ULL to_i) as [secs| |]; cbn [bind]; try discriminate.
  destruct (NUM2ULL nsec) as [nanos| |]; cbn [bind]; try discriminate.
  rewrite !encode_varint_loop_app. intros E. apply Ok_inj in E.
  exists secs, nanos. rewrite <- E. cbn [app]. reflexivity.
Qed.

Lemma object_returned (rb_to_s : VALUE -> outcome rstring)
    (class_name : rstring) (object_id : N) (enc : list N) :
  canonical_serialize rb_to_s (RObject class_name object_id) [] = Ok enc ->
  exists rep, enc = tag_o :: length_prefixed rep.
Proof.
  cbn [canonical_serialize]. unfold seq at 1. unfold push_back. cbn [bind app].
  destruct (rb_to_s (RObject class_name object_id)) as [obj_str| |]; cbn [bind];
    try discriminate.
  pose proof (serialize_string_bytes tag_o (class_name ++ [colon] ++ obj_str) []) as S.
  unfold serialize_string, seq at 1, push_back in S. cbn [bind app] in S.
  rewrite S. intros E. apply Ok_inj in E.
  exists (class_name ++ [colon] ++ obj_str). symmetry. exact E.
Qed.

Lemma elements_returned (rb_to_s : VALUE -> outcome rstring)
    (elems : list VALUE) (acc out : list N) :
  for_each (canonical_serialize rb_to_s) elems acc = Ok out ->
  exists encs,
    Forall2 (fun x enc => canonical_serialize rb_to_s x [] = Ok enc) elems encs /\
    out = acc ++ List.concat encs.
Proof.
  revert acc. induction elems as [|x rest IH]; intros acc; cbn [for_each].
  - unfold skip. intros E. apply Ok_inj in E. exists []. split; [constructor|].
    cbn [List.concat]. rewrite app_nil_r. symmetry. exact E.
  - unfold seq. rewrite (canonical_serialize_appends_only rb_to_s x acc).
    destruct (canonical_serialize rb_to_s x []) as [enc| |] eqn:Ex;
      unfold prepend, outcome_map; cbn [bind]; try discriminate.
    intros E. destruct (IH _ E) as (encs & F & ->).
    exists (enc :: encs). split; [constructor; assumption|].
    cbn [List.concat]. rewrite !app_assoc. reflexivity.
Qed.

Lemma array_returned (rb_to_s : VALUE -> outcome rstring)
    (elems : list VALUE) (enc : list N) :
  canonical_serialize rb_to_s (RArray elems) [] = Ok enc ->
  exists encs,
    Forall2 (fun x e => canonical_serialize rb_to_s x [] = Ok e) elems encs /\
    enc = tag_a :: varint (N.of_nat (List.length elems)) ++ List.concat encs.
Proof.
  cbn [canonical_serialize]. unfold seq, push_back, encode_varint. cbn [bind app].
  rewrite (encode_varint_loop_app _ [tag_a]). intros E.
  destruct (elements_returned rb_to_s elems _ _ E) as (encs & F & ->).
  exists encs. split; [exact F|]. reflexivity.
Qed.

Lemma collect_keys_length (rb_to_s : VALUE -> outcome rstring)
    (keys : list VALUE) (sorted_keys : list (rstring * VALUE)) :
  collect_keys rb_to_s keys = Ok sorted_keys ->
  List.length sorted_keys = List.length keys.
Proof.
  revert sorted_keys. induction keys as [|k rest IH]; intros sorted_keys;
    cbn [collect_keys].
  - intros E. apply Ok_inj in E. subst. reflexivity.
  - destruct (rb_to_s k) as [s| |]; cbn [bind]; try discriminate.
    destruct (collect_keys rb_to_s rest) as [l| |]; cbn [bind]; try discriminate.
    intros E. apply Ok_inj in E. subst. cbn [List.length]. rewrite (IH l eq_refl).
    reflexivity.
Qed.

Lemma rb_hash_aref_serializes (rb_to_s : VALUE -> outcome rstring)
    (pairs : list (VALUE * VALUE)) (key : VALUE) :
  exists v,
    (v = RNil \/ In v (map snd pairs)) /\
    rb_hash_aref (map (fun p => (fst p, canonical_serialize rb_to_s (snd p))) pairs) key =
    canonical_serialize rb_to_s v.
Proof.
  unfold rb_hash_aref.
  destruct (find _ _) as [entry|] eqn:E.
  - apply find_some in E as [E _]. apply in_map_iff in E as (p & <- & Hp).
    exists (snd p). split; [right; apply in_map; exact Hp | reflexivity].
  - exists RNil. split; [left; reflexivity | reflexivity].
Qed.

Lemma pairs_returned (rb_to_s : VALUE -> outcome rstring)
    (pairs : list (VALUE * VALUE)) (l : list (rstring * VALUE)) (acc out : list N) :
  for_each
    (fun key_pair =>
       serialize_string tag_s (fst key_pair) ;;
       rb_hash_aref (map (fun p => (fst p, canonical_serialize rb_to_s (snd p))) pairs)
         (snd key_pair))
    l acc = Ok out ->
  exists comps,
    List.length comps = List.length l /\
    Forall (pair_written rb_to_s (map snd pairs)) comps /\
    out = acc ++ List.concat comps.
Proof.
  revert acc. induction l as [|[r k] rest IH]; intros acc; cbn [for_each].
  - unfold skip. intros E. apply Ok_inj in E. exists []. repeat split; [constructor|].
    cbn [List.concat]. rewrite app_nil_r. symmetry. exact E.
  - unfold seq at 1 2. cbn [fst snd]. rewrite serialize_string_length_prefixed. cbn [bind].
    destruct (rb_hash_aref_serializes rb_to_s pairs k) as (v & Hv & ->).
    rewrite (canonical_serialize_appends_only rb_to_s v _).
    destruct (canonical_serialize rb_to_s v []) as [e| |] eqn:Ev;
      unfold prepend, outcome_map; cbn [bind]; try discriminate.
    intros E. destruct (IH _ E) as (comps & L & F & ->).
    exists (((tag_s :: length_prefixed r) ++ e) :: comps). repeat split.
    + cbn [List.length]. rewrite L. reflexivity.
    + constructor; [|exact F]. exists r, e, v. repeat split; assumption.
    + cbn [List.concat]. rewrite <- !app_assoc. reflexivity.
Qed.

Lemma hash_returned (rb_to_s : VALUE -> outcome rstring)
    (pairs : list (VALUE * VALUE)) (enc : list N) :
  canonical_serialize rb_to_s (RHash pairs) [] = Ok enc ->
  exists comps,
    List.length comps = List.length pairs /\
    Forall (pair_written rb_to_s (map snd pairs)) comps /\
    enc = tag_h :: varint (N.of_nat (List.length pairs)) ++ List.concat comps.
Proof.
  cbn [canonical_serialize]. unfold seq at 1 2. unfold push_back, encode_varint.
  cbn [bind app]. rewrite (encode_varint_loop_app _ [tag_h]). rewrite length_map.
  destruct (collect_keys rb_to_s (map fst pairs)) as [sorted_keys| |] eqn:Ec; cbn [bind];
    try discriminate.
  intros E. destruct (pairs_returned rb_to_s pairs _ _ _ E) as (comps & L & F & ->).
  exists comps. repeat split; [|exact F].
  rewrite L, (Permutation_length (std_sort_perm key_pair_lt sorted_keys)),
    (collect_keys_length rb_to_s _ _ Ec), length_map.
  reflexivity.
Qed.

Lemma nil_delimits (rb_to_s : VALUE -> outcome rstring) :
  delimits_itself rb_to_s [tag_n].
Proof.
  intros other r r' [w Ew] E.
  destruct (canonical_serialize_starts_with_tag rb_to_s w other Ew) as [rest ->].
  cbn [app] in E. injection E as Ht E.
  destruct w; try (cbv in Ht; discriminate Ht).
  apply Ok_inj in Ew. injection Ew as <-. split; [reflexivity | exact E].
Qed.

Lemma tags_agree (rb_to_s : VALUE -> outcome rstring) (v w : VALUE)
    (enc other r r' : list N) :
  canonical_serialize rb_to_s v [] = Ok enc ->
  canonical_serialize rb_to_s w [] = Ok other ->
  enc ++ r = other ++ r' -> type_tag v = type_tag w.
Proof.
  intros Ev Ew E.
  destruct (canonical_serialize_starts_with_tag rb_to_s v enc Ev) as [tv ->].
  destruct (canonical_serialize_starts_with_tag rb_to_s w other Ew) as [tw ->].
  cbn [app] in E. injection E as E _. exact E.
Qed.

Lemma tail_eq {A : Type} (a : A) (x y r r' : list A) :
  (a :: x) ++ r = (a :: y) ++ r' -> x ++ r = y ++ r'.
Proof. cbn [app]. intros E. injection E as E. exact E. Qed.

Lemma canonical_serialize_delimits (rb_to_s : VALUE -> outcome rstring) (v : VALUE) :
  forall enc, canonical_serialize rb_to_s v [] = Ok enc -> delimits_itself rb_to_s enc.
Proof.
  induction v as [| | |n|bits|s|name|elems IH|pairs IH|to_i nsec|class_name object_id]
    using VALUE_nested_ind;
    intros enc Ev other r r' [w Ew] E;
    pose proof (tags_agree rb_to_s _ w enc other r r' Ev Ew E) as Ht;
    destruct w as [| | |n'|bits'|s'|name'|elems'|pairs'|to_i' nsec'|class_name' object_id'];
    try (cbv in Ht; discriminate Ht); clear Ht.
  - apply Ok_inj in Ev, Ew. subst. apply tail_eq in E. split; [reflexivity | exact E].
  - apply Ok_inj in Ev, Ew. subst. apply tail_eq in E. split; [reflexivity | exact E].
  - apply Ok_inj in Ev, Ew. subst. apply tail_eq in E. split; [reflexivity | exact E].
  - apply integer_returned in Ev, Ew. subst. apply tail_eq in E.
    apply varint_prefix_free in E as [-> ->]. split; reflexivity.
  - apply Ok_inj in Ev, Ew. subst.
    apply app_eq_same_length in E; [exact E | reflexivity].
  - cbn [canonical_serialize] in Ev, Ew.
    rewrite serialize_string_length_prefixed in Ev, Ew. apply Ok_inj in Ev, Ew. subst.
    apply tail_eq in E. apply length_prefixed_delimited in E as [-> ->].
    split; reflexivity.
  - cbn [canonical_serialize] in Ev, Ew.
    rewrite serialize_string_length_prefixed in Ev, Ew. apply Ok_inj in Ev, Ew. subst.
    apply tail_eq in E. apply length_prefixed_delimited in E as [-> ->].
    split; reflexivity.
  - apply array_returned in Ev as (encs & F & ->), Ew as (encs' & F' & ->).
    apply tail_eq in E. rewrite <- !app_assoc in E.
    apply varint_prefix_free in E as [L E]. apply Nat2N.inj in L.
    apply (concat_delimited (delimits_itself rb_to_s) (is_encoding rb_to_s)) in E
      as [-> ->].
    + rewrite L. split; reflexivity.
    + intros x y t t' Px Qy. apply Px. exact Qy.
    + rewrite <- (Forall2_length F), <- (Forall2_length F'). exact L.
    + clear - IH F. induction F as [|x e elems encs Hx _ IHF]; constructor.
      * apply Forall_cons_iff in IH as [IHx _]. apply (IHx e Hx).
      * apply IHF. apply Forall_cons_iff in IH as [_ IH]. exact IH.
    + clear - F'. induction F' as [|x e elems' encs' Hx _ IHF]; constructor;
        [exists x; exact Hx | exact IHF].
  - apply hash_returned in Ev as (comps & Lc & F & ->), Ew as (comps' & Lc' & F' & ->).
    apply tail_eq in E. rewrite <- !app_assoc in E.
    apply varint_prefix_free in E as [L E]. apply Nat2N.inj in L.
    apply (concat_delimited
             (fun c => exists t e, c = (tag_s :: length_prefixed t) ++ e /\
                                   delimits_itself rb_to_s e)
             (pair_written rb_to_s (map snd pairs'))) in E as [-> ->].
    + rewrite L. split; reflexivity.
    + intros x y t t' (kx & ex & -> & Dx) (ky & ey & vy & -> & _ & Ey) Exy.
      rewrite <- !app_assoc in Exy. apply tail_eq in Exy.
      apply length_prefixed_delimited in Exy as [-> Exy].
      destruct (Dx ey t t' (ex_intro _ vy Ey) Exy) as [-> ->]. split; reflexivity.
    + rewrite Lc, Lc'. exact L.
    + rewrite Forall_forall in *. intros c Hc.
      destruct (F c Hc) as (t & e & v & -> & Hv & Ee). exists t, e. split; [reflexivity|].
      destruct Hv as [->|Hv].
      * apply Ok_inj in Ee. subst e. apply nil_delimits.
      * apply in_map_iff in Hv as (p & <- & Hp). apply (proj2 (IH p Hp) e Ee).
    + exact F'.
  - apply time_returned in Ev as (s1 & n1 & ->), Ew as (s2 & n2 & ->).
    apply tail_eq in E. rewrite <- !app_assoc in E.
    apply varint_prefix_free in E as [-> E].
    apply varint_prefix_free in E as [-> ->]. split; reflexivity.
  - apply object_returned in Ev as (rep & ->), Ew as (rep' & ->).
    apply tail_eq in E. apply length_prefixed_delimited in E as [-> ->].
    split; reflexivity.
Qed.

(** X18. No encoding is a proper prefix of another: if two encodings, each
    followed by arbitrary bytes, give the same stream, the encodings are
    equal and so are the bytes that follow. *)
Theorem encodings_delimit_themselves (rb_to_s : VALUE -> outcome rstring)
    (v w : VALUE) (enc_v enc_w rest_v rest_w : list N) :
  canonical_serialize rb_to_s v [] = Ok enc_v ->
  canonical_serialize rb_to_s w [] = Ok enc_w ->
  enc_v ++ rest_v = enc_w ++ rest_w ->
  enc_v = enc_w /\ rest_v = rest_w.
Proof.
  intros Ev Ew E.
  apply (canonical_serialize_delimits rb_to_s v enc_v Ev enc_w rest_v rest_w); [|exact E].
  exists w. exact Ew.
Qed.

Lemma encodings_delimit_themselves_witness :
  [tag_i; 10] = [tag_i; 10] /\ [tag_n] = [tag_n].
Proof.
  apply (encodings_delimit_themselves plain_to_s (RInteger 5) (RInteger 5)
           [tag_i; 10] [tag_i; 10] [tag_n] [tag_n]); reflexivity.
Defined.

(** X19. Two Arrays with the same encoding have the same number of elements
    and their elements encode alike position by position: swapping two
    elements that encode differently changes the encoding. *)
Theorem array_encoding_determines_elements (rb_to_s : VALUE -> outcome rstring)
    (xs ys : list VALUE) (enc : list N) :
  canonical_serialize rb_to_s (RArray xs) [] = Ok enc ->
  canonical_serialize rb_to_s (RArray ys) [] = Ok enc ->
  Forall2
    (fun x y => canonical_serialize rb_to_s x [] = canonical_serialize rb_to_s y [])
    xs ys.
Proof.
  intros Ex Ey.
  apply array_returned in Ex as (encs & F & ->), Ey as (encs' & F' & E).
  injection E as E.
  apply varint_prefix_free in E as [L E]. apply Nat2N.inj in L.
  rewrite <- (app_nil_r (List.concat encs)), <- (app_nil_r (List.concat encs')) in E.
  apply (concat_delimited (delimits_itself rb_to_s) (is_encoding rb_to_s)) in E
    as [-> _].
  - clear L. revert ys F'. induction F as [|x e xs encs Hx _ IHF]; intros ys F';
      inversion F' as [|y e' ys' encs' Hy F'' E1 E2]; subst; constructor.
    + rewrite Hx, Hy. reflexivity.
    + apply IHF. exact F''.
  - intros x y t t' Px Qy. apply Px. exact Qy.
  - rewrite <- (Forall2_length F), <- (Forall2_length F'). exact L.
  - clear - F. induction F as [|x e xs encs Hx _ IHF]; constructor;
      [apply (canonical_serialize_delimits rb_to_s x e Hx) | exact IHF].
  - clear - F'. induction F' as [|y e ys encs' Hy _ IHF]; constructor;
      [exists y; exact Hy | exact IHF].
Qed.

Lemma array_encoding_determines_elements_witness :
  Forall2
    (fun x y => canonical_serialize (core_to_s plain_to_s) x [] =
                canonical_serialize (core_to_s plain_to_s) y [])
    [RHash plain_pairs; RNil] [RHash plain_pairs_swapped; RNil].
Proof.
  apply (array_encoding_determines_elements (core_to_s plain_to_s)
           [RHash plain_pairs; RNil] [RHash plain_pairs_swapped; RNil]
           [tag_a; 2; tag_h; 2; tag_s; 1; 49; tag_t; tag_s; 1; 50; tag_f; tag_n]);
    reflexivity.
Defined.
